(** * The auxiliary library of the Lua runtime (auxlib.go), embedded in Rocq

    The host-facing helpers of [auxlib.go] are translated function by
    function: argument checking ([CheckAny], [CheckString], [CheckOption],
    the [Opt*] family), error raising ([ArgError], [TypeError]), position
    strings ([Where]), dotted table paths ([FindTable]), module registration
    ([RegisterModule]), metamethod calls ([CallMeta]) and chunk execution
    ([DoString], [DoFile]).

    A Lua state is a record holding the register stack, the chain of call
    frames, a heap of tables, a heap of function objects and the two root
    tables.  Code that may raise a Lua error runs in a state-and-error
    monad: raising corresponds to Go's [panic] unwinding to the nearest
    protected call. *)

From stdpp Require Import gmap strings list pretty.

(** ** Values *)

(** Modelled from the spec: [LValueType] (value.go), the dynamic kind of a
    value; the eight kinds of the closed tagged union of the data model. *)
Inductive LValueType : Type :=
  | LTNil | LTBool | LTNumber | LTString
  | LTFunction | LTUserData | LTThread | LTTable.

Global Instance LValueType_eq_dec : EqDecision LValueType.
Proof. solve_decision. Defined.

(** Modelled from the spec: the table of kind names behind
    [LValueType.String()] lives in value.go; the spec only fixes the shape
    ["<kind> expected, got <kind>"].  The names are the ones Lua's [type]
    reports. *)
Definition LValueType_String (t : LValueType) : string :=
  match t with
  | LTNil => "nil"
  | LTBool => "boolean"
  | LTNumber => "number"
  | LTString => "string"
  | LTFunction => "function"
  | LTUserData => "userdata"
  | LTThread => "thread"
  | LTTable => "table"
  end.

(** What the host language supplies and this file does not look into: the
    number representation with its conversions [int(x)] and [int64(x)], and
    the type of native callbacks ([LGFunction]). *)
Class Host : Type := {
  LNumber : Type;
  LGFunction : Type;
  toInt : LNumber -> Z;
  toInt64 : LNumber -> Z;
}.

(** Modelled from the spec: [LValue] (value.go), the tagged union over
    nil, booleans, numbers, strings, tables, functions, userdata and
    threads.  Numbers, strings and booleans are carried by value; tables,
    functions, userdata and threads are Go pointers, here addresses, so
    that two values denote the identical object iff they are equal. *)
Inductive LValue `{Host} : Type :=
  | LNil
  | VBool (b : bool)
  | VNumber (x : LNumber)
  | VString (s : string)
  | VTable (p : nat)
  | VFunction (p : nat)
  | VUserData (p : nat)
  | VThread (p : nat).

(** [v.Type()] *)
Definition LValue_Type `{Host} (v : LValue) : LValueType :=
  match v with
  | LNil => LTNil
  | VBool _ => LTBool
  | VNumber _ => LTNumber
  | VString _ => LTString
  | VTable _ => LTTable
  | VFunction _ => LTFunction
  | VUserData _ => LTUserData
  | VThread _ => LTThread
  end.

(** ** Functions, frames and the state

    Modelled from the spec: the records below are declared in function.go
    and state.go; they carry the fields that auxlib.go reads ([Proto],
    [SourceName], [DbgSourcePositions], [Fn], [Pc], the frame's base) and
    the collaborators the spec names: the call stack, the registry and the
    globals. *)

Record FunctionProto : Type := {
  SourceName : string;
  DbgSourcePositions : list Z;
}.

(** A function object: a compiled closure has a [Proto], a native function
    has none and carries its callback. *)
Record LFunction `{Host} : Type := {
  IsG : bool;
  Proto : option FunctionProto;
  GFunction : option LGFunction;
}.

Record callFrame `{Host} : Type := {
  Fn : LFunction;
  Pc : Z;
  LocalBase : nat;
}.

Record Debug `{Host} : Type := { frame : callFrame }.

Inductive ApiErrorType : Type :=
  | ApiErrorSyntax | ApiErrorFile | ApiErrorRun | ApiErrorPanic.

Record ApiError `{Host} : Type := {
  ErrType : ApiErrorType;
  Message : string;
  Object : LValue;
}.

Definition newApiError `{Host} (code : ApiErrorType) (message : string)
    (object : LValue) : ApiError :=
  {| ErrType := code; Message := message; Object := object |}.

(** The string-keyed slots of a table.  Every table access of auxlib.go
    uses an [LString] key, so this is the part of a table it can reach. *)
Abbreviation LTable := (gmap string LValue).

(** Modelled from the spec: [LState] (state.go).  [reg] is the register
    stack, bottom first; [stack] is the
    current frame followed by its parents; [tables] and [functions] are the
    heaps that table and function addresses point into; [G_Registry] and
    [G_Global] are the addresses of the registry root and of the globals. *)
Record LState `{Host} : Type := {
  reg : list LValue;
  stack : list callFrame;
  tables : list LTable;
  functions : list LFunction;
  G_Registry : nat;
  G_Global : nat;
}.

Definition set_reg `{Host} (f : list LValue -> list LValue) (ls : LState) : LState :=
  {| reg := f (reg ls); stack := stack ls; tables := tables ls;
     functions := functions ls; G_Registry := G_Registry ls;
     G_Global := G_Global ls |}.

Definition set_tables `{Host} (f : list LTable -> list LTable) (ls : LState) : LState :=
  {| reg := reg ls; stack := stack ls; tables := f (tables ls);
     functions := functions ls; G_Registry := G_Registry ls;
     G_Global := G_Global ls |}.

Definition set_functions `{Host} (f : list LFunction -> list LFunction)
    (ls : LState) : LState :=
  {| reg := reg ls; stack := stack ls; tables := tables ls;
     functions := f (functions ls); G_Registry := G_Registry ls;
     G_Global := G_Global ls |}.

(** ** The monad of Lua computations *)

(** An operation either returns a value or raises an error; both leave a
    state behind (a raise does not roll the heap back). *)
Inductive Res `{Host} (A : Type) : Type :=
  | Ret (a : A) (ls : LState)
  | Raise (e : ApiError) (ls : LState).
Arguments Ret {_ _} a ls.
Arguments Raise {_ _} e ls.

Definition M `{Host} (A : Type) : Type := LState -> Res A.

Definition ret `{Host} {A} (a : A) : M A := fun ls => Ret a ls.

Definition bind `{Host} {A B} (m : M A) (k : A -> M B) : M B :=
  fun ls =>
    match m ls with
    | Ret a ls' => k a ls'
    | Raise e ls' => Raise e ls'
    end.

Notation "'do' x <- m ; k" := (bind m (fun x => k))
  (at level 10, x name, m at level 100, k at level 200).
Notation "m ;; k" := (bind m (fun _ => k))
  (at level 100, k at level 200, right associativity).

(** Reading the state, and running a state update. *)
Definition gets `{Host} {A} (f : LState -> A) : M A := fun ls => Ret (f ls) ls.
Definition modify `{Host} (f : LState -> LState) : M unit := fun ls => Ret tt (f ls).

(** What the interpreter supplies: the name of the function running in the
    current frame, the metatable of a value ([LNil] when it has none), the
    execution of a callable on arguments, the compiler, the file system
    and [filepath.Base]. *)
Class Interp `{Host} : Type := {
  frameFuncName : LState -> string;
  metatable : LValue -> LState -> LValue;
  invoke : LValue -> list LValue -> M (list LValue);
  Load : string -> string -> LState -> (nat * LState) + ApiError;
  os_Open : string -> option string;
  os_Stdin : string;
  filepath_Base : string -> string;
}.

Section auxlib.
Context `{Interp}.

(** ** The stack API that auxlib.go calls *)

(** Modelled from the spec: the pseudo indices (value.go) under which
    [Get] hands out the registry root and the globals.  All that matters
    below is that they are distinct and not positive. *)
Definition RegistryIndex : Z := -10000.
Definition GlobalsIndex : Z := -10002.

Definition currentLocalBase (ls : LState) : nat :=
  match stack ls with
  | cf :: _ => LocalBase cf
  | [] => 0
  end.

(** [ls.reg.Top()] *)
Definition reg_Top (ls : LState) : Z := Z.of_nat (length (reg ls)).

(** Modelled from the spec: [GetTop] (state.go) is the arity of the active
    call, the number of registers above the frame's base. *)
Definition GetTop (ls : LState) : Z :=
  (reg_Top ls - Z.of_nat (currentLocalBase ls))%Z.

(** Modelled from the spec: [Get] (state.go).  Argument positions are
    1-based; a position beyond the arity reads as [LNil]; the two pseudo
    indices name the registry and the globals.  The other non-positive
    indices (stack-relative, environment, upvalues) are not used by
    auxlib.go and read as [LNil] here. *)
Definition Get (idx : Z) (ls : LState) : LValue :=
  if (0 <? idx)%Z then
    let r := (Z.of_nat (currentLocalBase ls) + idx - 1)%Z in
    if (r <? reg_Top ls)%Z then default LNil (reg ls !! Z.to_nat r) else LNil
  else if (idx =? RegistryIndex)%Z then VTable (G_Registry ls)
  else if (idx =? GlobalsIndex)%Z then VTable (G_Global ls)
  else LNil.

(** Modelled from the spec: [ls.reg.Push(v)] and [ls.Push(v)] (state.go)
    put a value on top of the register stack. *)
Definition Push (v : LValue) : M unit := modify (set_reg (fun r => r ++ [v])).

(** Modelled from the spec: [ls.reg.Pop()] (state.go) takes the top
    register off the stack and returns it ([LNil] on an empty stack). *)
Definition Pop : M LValue := fun ls =>
  Ret (default LNil (last (reg ls))) (set_reg (fun r => take (length r - 1) r) ls).

(** Modelled from the spec: [RaiseError] (state.go) raises a run-time
    error carrying the formatted message into the error channel; the
    formatting is done by the caller's [fmt] verbs, written out at each
    call below. *)
Definition RaiseError {A} (message : string) : M A :=
  fun ls => Raise (newApiError ApiErrorRun message LNil) ls.

(** ** Error operations

    [fmt]'s verb [%v] prints an [int] as its decimal numeral ([pretty]) and
    a string as it is. *)

Definition ArgError {A} (n : Z) (message : string) : M A := fun ls =>
  RaiseError
    ("bad argument #" +:+ pretty n +:+ " to " +:+ frameFuncName ls
       +:+ " (" +:+ message +:+ ")") ls.

Definition TypeError {A} (n : Z) (typ : LValueType) : M A := fun ls =>
  RaiseError
    ("bad argument #" +:+ pretty n +:+ " to " +:+ frameFuncName ls
       +:+ " (" +:+ LValueType_String typ +:+ " expected, got "
       +:+ LValueType_String (LValue_Type (Get n ls)) +:+ ")") ls.

(** ** checkType

    [TypeError] and [ArgError] unwind, so the [return] that follows them
    in the Go source is never reached; the accessors end with the raise.
    A result of pointer type ([*LTable], [*LFunction], [*LUserData]) is an
    [option nat]: an address, or [None] for Go's [nil]. *)

Definition CheckAny (n : Z) : M LValue := fun ls =>
  if (n >? GetTop ls)%Z then ArgError n "value expected" ls
  else Ret (Get n ls) ls.

Definition CheckInt (n : Z) : M Z := fun ls =>
  match Get n ls with
  | VNumber intv => Ret (toInt intv) ls
  | _ => TypeError n LTNumber ls
  end.

Definition CheckInt64 (n : Z) : M Z := fun ls =>
  match Get n ls with
  | VNumber intv => Ret (toInt64 intv) ls
  | _ => TypeError n LTNumber ls
  end.

Definition CheckNumber (n : Z) : M LNumber := fun ls =>
  match Get n ls with
  | VNumber lv => Ret lv ls
  | _ => TypeError n LTNumber ls
  end.

Definition CheckString (n : Z) : M string := fun ls =>
  match Get n ls with
  | VString lv => Ret lv ls
  | _ => TypeError n LTString ls
  end.

Definition CheckBool (n : Z) : M bool := fun ls =>
  match Get n ls with
  | VBool lv => Ret lv ls
  | _ => TypeError n LTBool ls
  end.

Definition CheckTable (n : Z) : M (option nat) := fun ls =>
  match Get n ls with
  | VTable lv => Ret (Some lv) ls
  | _ => TypeError n LTTable ls
  end.

Definition CheckFunction (n : Z) : M (option nat) := fun ls =>
  match Get n ls with
  | VFunction lv => Ret (Some lv) ls
  | _ => TypeError n LTFunction ls
  end.

Definition CheckUserData (n : Z) : M (option nat) := fun ls =>
  match Get n ls with
  | VUserData lv => Ret (Some lv) ls
  | _ => TypeError n LTUserData ls
  end.

Definition CheckThread (n : Z) : M (option nat) := fun ls =>
  match Get n ls with
  | VThread lv => Ret (Some lv) ls
  | _ => TypeError n LTThread ls
  end.

(** [strings.Join(elems, sep)] *)
Fixpoint strings_Join (elems : list string) (sep : string) : string :=
  match elems with
  | [] => ""
  | [e] => e
  | e :: rest => e +:+ sep +:+ strings_Join rest sep
  end.

(** The [for i, v := range options] loop of [CheckOption]: the index of
    the first option equal to [str], counting from [i]. *)
Fixpoint CheckOption_loop (str : string) (options : list string) (i : Z) : option Z :=
  match options with
  | [] => None
  | v :: rest =>
      if String.eqb v str then Some i else CheckOption_loop str rest (i + 1)%Z
  end.

Definition CheckOption (n : Z) (options : list string) : M Z :=
  do str <- CheckString n;
  match CheckOption_loop str options 0 with
  | Some i => ret i
  | None =>
      ArgError n ("invalid option: " +:+ str +:+ " (must be one of "
                    +:+ strings_Join options "," +:+ ")")
  end.

Definition CheckType (n : Z) (typ : LValueType) : M unit := fun ls =>
  let v := Get n ls in
  if decide (LValue_Type v <> typ)
  then ArgError n (LValueType_String typ +:+ " expected") ls
  else Ret tt ls.

(** The first loop of [CheckTypes]: is [vt] one of [typs]? *)
Fixpoint CheckTypes_match (vt : LValueType) (typs : list LValueType) : bool :=
  match typs with
  | [] => false
  | typ :: rest => if decide (vt = typ) then true else CheckTypes_match vt rest
  end.

(** The second loop of [CheckTypes]: the names of [typs] appended to
    [buf], in order. *)
Fixpoint CheckTypes_names (typs : list LValueType) (buf : list string)
    : list string :=
  match typs with
  | [] => buf
  | typ :: rest => CheckTypes_names rest (buf ++ [LValueType_String typ])
  end.

Definition CheckTypes (n : Z) (typs : list LValueType) : M unit := fun ls =>
  let vt := LValue_Type (Get n ls) in
  if CheckTypes_match vt typs then Ret tt ls
  else ArgError n (strings_Join (CheckTypes_names typs []) " or " +:+ " expected") ls.

(** ** optType *)

Definition OptInt (n : Z) (d : Z) : M Z := fun ls =>
  match Get n ls with
  | LNil => Ret d ls
  | VNumber intv => Ret (toInt intv) ls
  | _ => TypeError n LTNumber ls
  end.

Definition OptInt64 (n : Z) (d : Z) : M Z := fun ls =>
  match Get n ls with
  | LNil => Ret d ls
  | VNumber intv => Ret (toInt64 intv) ls
  | _ => TypeError n LTNumber ls
  end.

Definition OptNumber (n : Z) (d : LNumber) : M LNumber := fun ls =>
  match Get n ls with
  | LNil => Ret d ls
  | VNumber lv => Ret lv ls
  | _ => TypeError n LTNumber ls
  end.

Definition OptString (n : Z) (d : string) : M string := fun ls =>
  match Get n ls with
  | LNil => Ret d ls
  | VString lv => Ret lv ls
  | _ => TypeError n LTString ls
  end.

Definition OptBool (n : Z) (d : bool) : M bool := fun ls =>
  match Get n ls with
  | LNil => Ret d ls
  | VBool lv => Ret lv ls
  | _ => TypeError n LTBool ls
  end.

Definition OptTable (n : Z) (d : option nat) : M (option nat) := fun ls =>
  match Get n ls with
  | LNil => Ret d ls
  | VTable lv => Ret (Some lv) ls
  | _ => TypeError n LTTable ls
  end.

Definition OptFunction (n : Z) (d : option nat) : M (option nat) := fun ls =>
  match Get n ls with
  | LNil => Ret d ls
  | VFunction lv => Ret (Some lv) ls
  | _ => TypeError n LTFunction ls
  end.

Definition OptUserData (n : Z) (d : option nat) : M (option nat) := fun ls =>
  match Get n ls with
  | LNil => Ret d ls
  | VUserData lv => Ret (Some lv) ls
  | _ => TypeError n LTUserData ls
  end.

(** ** debug operations *)

(** A run-time panic of Go itself (here: a slice index out of range); it
    unwinds like a raised error. *)
Definition goPanic {A} (message : string) : M A :=
  fun ls => Raise (newApiError ApiErrorPanic message LNil) ls.

(** [s[i]] on a Go slice: [None] stands for the index-out-of-range panic. *)
Definition slice_index {A} (s : list A) (i : Z) : option A :=
  if (i <? 0)%Z then None else s !! Z.to_nat i.

(** Modelled from the spec: [GetStack] (state.go) yields the frame [level]
    levels up from the current one, 0 being the current frame, and fails
    when the chain of frames is shorter.  A negative level names no frame
    here. *)
Definition GetStack (level : Z) (ls : LState) : option Debug :=
  if (level <? 0)%Z then None
  else match stack ls !! Z.to_nat level with
       | Some cf => Some {| frame := cf |}
       | None => None
       end.

Definition Where (level : Z) : M string := fun ls =>
  match GetStack level ls with
  | None => Ret "" ls
  | Some dbg =>
      let cf := frame dbg in
      let proto := Proto (Fn cf) in
      let sourcename :=
        match proto with Some p => SourceName p | None => "[G]" end in
      match proto with
      | Some p =>
          match slice_index (DbgSourcePositions p) (Pc cf - 1) with
          | Some pos => Ret (sourcename +:+ ":" +:+ (pretty pos +:+ ":")) ls
          | None => goPanic "index out of range" ls
          end
      | None => Ret (sourcename +:+ ":" +:+ "") ls
      end
  end.

(** ** table operations *)

(** The table an address points to; an address outside the heap has no
    slots. *)
Definition tableAt (p : nat) (ls : LState) : LTable :=
  default ∅ (tables ls !! p).

(** Modelled from the spec: the raw table primitives (get and set
    bypassing metamethods) and table creation live in state.go and
    table.go.  A slot that was never set reads as [LNil].  auxlib.go
    applies them to tables and string keys only. *)
Definition RawGet (obj key : LValue) (ls : LState) : LValue :=
  match obj, key with
  | VTable p, VString k => default LNil (tableAt p ls !! k)
  | _, _ => LNil
  end.

(** Modelled from the spec: [RawSet] (state.go), the raw set: the slot
    of an allocated table takes the value, nothing else changes. *)
Definition RawSet (obj key value : LValue) : M unit :=
  match obj, key with
  | VTable p, VString k => modify (set_tables (alter (insert k value) p))
  | _, _ => ret tt
  end.

(** Modelled from the spec: [tb.RawSetH(key, value)] (table.go), the raw
    set on a table pointer. *)
Definition RawSetH (tb : nat) (key value : LValue) : M unit :=
  RawSet (VTable tb) key value.

(** Modelled from the spec: [CreateTable(acap, hcap)] (state.go) creates
    an empty table; the capacities are allocation hints. *)
Definition CreateTable (acap hcap : Z) : M LValue := fun ls =>
  Ret (VTable (length (tables ls))) (set_tables (fun t => t ++ [∅]) ls).

(** [strings.Split(s, sep)] for a separator of one character: the pieces
    between the separators, one more than there are separators. *)
Fixpoint strings_Split (s : string) (sep : Ascii.ascii) : list string :=
  match s with
  | EmptyString => [""]
  | String c rest =>
      if Ascii.eqb c sep then "" :: strings_Split rest sep
      else match strings_Split rest sep with
           | piece :: pieces => String c piece :: pieces
           | [] => [String c ""]
           end
  end.

(** The [for _, name := range names] loop of [FindTable]. *)
Fixpoint FindTable_loop (names : list string) (size : Z) (curobj : LValue)
    : M LValue :=
  match names with
  | [] => ret curobj
  | name :: rest =>
      if decide (LValue_Type curobj ≠ LTTable) then ret LNil
      else
        do nextobj <- gets (RawGet curobj (VString name));
        match nextobj with
        | LNil =>
            do tb <- CreateTable 0 size;
            RawSet curobj (VString name) tb ;;
            FindTable_loop rest size tb
        | _ =>
            if decide (LValue_Type nextobj ≠ LTTable) then ret LNil
            else FindTable_loop rest size nextobj
        end
  end.

(** The separator ["."] of dotted paths (character 46). *)
Definition dot : Ascii.ascii := Ascii.ascii_of_nat 46.

Definition FindTable (obj : LValue) (n : string) (size : Z) : M LValue :=
  FindTable_loop (strings_Split n dot) size obj.

(** ** register operations *)

(** Modelled from the spec: [GetField] and [SetField] (state.go) read and
    write the slot of a table named by a string; indexing a value that is
    no table is a script error.  Handlers a metatable may install for
    missing slots are not part of this model. *)
Definition GetField (obj : LValue) (skey : string) : M LValue := fun ls =>
  match obj with
  | VTable _ => Ret (RawGet obj (VString skey) ls) ls
  | _ =>
      RaiseError ("attempt to index a non-table object("
                    +:+ LValueType_String (LValue_Type obj) +:+ ")") ls
  end.

Definition SetField (obj : LValue) (skey : string) (value : LValue) : M unit :=
  match obj with
  | VTable _ => RawSet obj (VString skey) value
  | _ =>
      RaiseError ("attempt to index a non-table object("
                    +:+ LValueType_String (LValue_Type obj) +:+ ")")
  end.

(** Modelled from the spec: [NewFunction(fn)] (state.go), the
    function-construction primitive: a fresh function object wrapping a
    native callback. *)
Definition NewFunction (fn : LGFunction) : M LValue := fun ls =>
  Ret (VFunction (length (functions ls)))
      (set_functions
         (fun f => f ++ [{| IsG := true; Proto := None; GFunction := Some fn |}])
         ls).

(** The [for fname, fn := range funcs] loop.  A Go map is enumerated in an
    order the run time picks; [funcs] is the map as the list of its
    entries in that order. *)
Fixpoint RegisterModule_loop (newmodtb : nat) (funcs : list (string * LGFunction))
    : M unit :=
  match funcs with
  | [] => ret tt
  | (fname, fn) :: rest =>
      do f <- NewFunction fn;
      RawSetH newmodtb (VString fname) f ;;
      RegisterModule_loop newmodtb rest
  end.

Definition RegisterModule (name : string) (funcs : list (string * LGFunction))
    : M LValue :=
  do registry <- gets (Get RegistryIndex);
  do tb <- FindTable registry "_LOADED" 1;
  do mod_ <- GetField tb name;
  if decide (LValue_Type mod_ ≠ LTTable) then
    do globals <- gets (Get GlobalsIndex);
    do newmod <- FindTable globals name (Z.of_nat (length funcs));
    match newmod with
    | VTable newmodtb =>
        RegisterModule_loop newmodtb funcs ;;
        SetField tb name (VTable newmodtb) ;;
        ret (VTable newmodtb)
    | _ => RaiseError ("name conflict for module(" +:+ name +:+ ")")
    end
  else ret mod_.

(** The loop of [RegisterModuleToTable] has the body of the loop of
    [RegisterModule], so it is the same function here. *)
Definition RegisterModuleToTable (tbl : LValue)
    (funcs : list (string * LGFunction)) : M LValue :=
  match tbl with
  | VTable tb =>
      RegisterModule_loop tb funcs ;;
      ret (VTable tb)
  | _ => TypeError 1 LTTable
  end.

(** ** metatable operations *)

(** Modelled from the spec: [NewTable] (state.go) creates an empty
    table. *)
Definition NewTable : M nat := fun ls =>
  Ret (length (tables ls)) (set_tables (fun t => t ++ [∅]) ls).

Definition NewTypeMetatable (typ : string) : M (option nat) :=
  do regtable <- gets (Get RegistryIndex);
  do mt <- GetField regtable typ;
  match mt with
  | VTable tb => ret (Some tb)
  | _ =>
      do mtnew <- NewTable;
      SetField regtable typ (VTable mtnew) ;;
      ret (Some mtnew)
  end.

Definition GetTypeMetatable (typ : string) : M LValue :=
  do regtable <- gets (Get RegistryIndex);
  GetField regtable typ.

(** Modelled from the spec: [metaOp1] (state.go) is the named field of the
    value's metatable, [LNil] if there is no metatable or no such field. *)
Definition metaOp1 (obj : LValue) (event : string) (ls : LState) : LValue :=
  match metatable obj ls with
  | VTable mt => RawGet (VTable mt) (VString event) ls
  | _ => LNil
  end.

Definition GetMetaField (obj : LValue) (event : string) : M LValue :=
  gets (metaOp1 obj event).

Definition MultRet : Z := -1.

(** The results of a call cut or padded with [LNil] to [nret] values;
    [MultRet] keeps them all. *)
Definition adjust_results (nret : Z) (rets : list LValue) : list LValue :=
  if (nret =? MultRet)%Z then rets
  else take (Z.to_nat nret) (rets ++ replicate (Z.to_nat nret) LNil).

(** Modelled from the spec: [Call(nargs, nret)] (state.go), a call under
    normal semantics.  The callee sits below its [nargs] arguments on top
    of the register stack; both are replaced by the results; an error
    raised by the callee propagates. *)
Definition Call (nargs nret : Z) : M unit := fun ls =>
  let fnidx := (length (reg ls) - Z.to_nat nargs - 1)%nat in
  let fn := default LNil (reg ls !! fnidx) in
  let args := drop (S fnidx) (reg ls) in
  let below := take fnidx (reg ls) in
  match invoke fn args (set_reg (fun _ => below) ls) with
  | Ret rets ls' => Ret tt (set_reg (fun _ => below ++ adjust_results nret rets) ls')
  | Raise e ls' => Raise e ls'
  end.

(** Modelled from the spec: [PCall(nargs, nret, nil)] (state.go), a
    protected call.  An error raised by the callee is caught and returned
    as an error value; the registers are cut back to below the callee, the
    heap keeps what the callee did to it. *)
Definition PCall (nargs nret : Z) : M (option ApiError) := fun ls =>
  let below := take (length (reg ls) - Z.to_nat nargs - 1) (reg ls) in
  match Call nargs nret ls with
  | Ret _ ls' => Ret None ls'
  | Raise e ls' => Ret (Some e) (set_reg (fun _ => below) ls')
  end.

Definition CallMeta (obj : LValue) (event : string) : M LValue :=
  do op <- gets (metaOp1 obj event);
  if decide (LValue_Type op = LTFunction) then
    Push op ;;
    Push obj ;;
    Call 1 1 ;;
    Pop
  else ret LNil.

(** ** load and function call operations *)

Definition LoadFile (path : string) (ls : LState) : (nat * LState) + ApiError :=
  if decide (String.length path = 0) then Load os_Stdin (filepath_Base path) ls
  else
    match os_Open path with
    | None => inr (newApiError ApiErrorFile ("can not read " +:+ path) LNil)
    | Some file => Load file (filepath_Base path) ls
    end.

Definition LoadString (source : string) (ls : LState) : (nat * LState) + ApiError :=
  Load source "<string>" ls.

Definition DoFile (path : string) : M (option ApiError) := fun ls =>
  match LoadFile path ls with
  | inr err => Ret (Some err) ls
  | inl (fn, ls') => (Push (VFunction fn) ;; PCall 0 MultRet) ls'
  end.

Definition DoString (source : string) : M (option ApiError) := fun ls =>
  match LoadString source ls with
  | inr err => Ret (Some err) ls
  | inl (fn, ls') => (Push (VFunction fn) ;; PCall 0 MultRet) ls'
  end.

(** ** The error taxonomy of the specification

    The errors of the argument accessors are distinguished by the format
    of their message, as the specification lists them. *)

(** ["bad argument #<n> to <fname> (<detail>)"] *)
Definition bad_argument (n : Z) (ls : LState) (detail : string) : ApiError :=
  newApiError ApiErrorRun
    ("bad argument #" +:+ pretty n +:+ " to " +:+ frameFuncName ls
       +:+ " (" +:+ detail +:+ ")") LNil.

Definition ArgumentMissing (n : Z) (ls : LState) : ApiError :=
  bad_argument n ls "value expected".

(** ["<kind> expected, got <kind>"] *)
Definition TypeMismatch (n : Z) (ls : LState) (expected actual : LValueType)
    : ApiError :=
  bad_argument n ls
    (LValueType_String expected +:+ " expected, got " +:+ LValueType_String actual).

(** ["invalid option: <value> (must be one of <comma-joined-options>)"] *)
Definition InvalidOption (n : Z) (ls : LState) (str : string)
    (options : list string) : ApiError :=
  bad_argument n ls
    ("invalid option: " +:+ str +:+ " (must be one of "
       +:+ strings_Join options "," +:+ ")").

(** ["name conflict for module(<name>)"] *)
Definition NameConflict (name : string) : ApiError :=
  newApiError ApiErrorRun ("name conflict for module(" +:+ name +:+ ")") LNil.

(** ** Heap predicates used by the table properties *)

(** The address denotes an allocated table. *)
Definition valid_table (p : nat) (ls : LState) : Prop :=
  p < length (tables ls).

(** Every table reference of the state denotes an allocated table: the two
    roots, and every table stored in a slot.  Go's memory safety gives this
    for free; the list-based heap has to say it. *)
Definition heap_wf (ls : LState) : Prop :=
  valid_table (G_Registry ls) ls
  /\ valid_table (G_Global ls) ls
  /\ forall p k q, RawGet (VTable p) (VString k) ls = VTable q -> valid_table q ls.

(** The read-only walk along a path: does it run into a value that is no
    table, at the root or in a slot that is already set?  A slot that is
    not set ends the walk (the rest of the path is still to be created). *)
Fixpoint hits_non_table (names : list string) (curobj : LValue) (ls : LState)
    : bool :=
  match names with
  | [] => false
  | name :: rest =>
      match curobj with
      | VTable _ =>
          match RawGet curobj (VString name) ls with
          | LNil => false
          | VTable q => hits_non_table rest (VTable q) ls
          | _ => true
          end
      | _ => true
      end
  end.

(** The state after one creating step of [FindTable]: a new empty table
    is allocated and stored in slot [k] of table [p]. *)
Definition link_new (p : nat) (k : string) (ls : LState) : LState :=
  set_tables (alter (insert k (VTable (length (tables ls)))) p)
    (set_tables (fun t => t ++ [∅]) ls).

(** A function object wrapping the native callback [fn]. *)
Definition native_function (fn : LGFunction) : LFunction :=
  {| IsG := true; Proto := None; GFunction := Some fn |}.

(** No slot holds a reference to a table that is not allocated. *)
Definition no_dangling (ls : LState) : Prop :=
  forall p k q, RawGet (VTable p) (VString k) ls = VTable q -> valid_table q ls.

(** The read-only walk along a path: the value the slots lead to. *)
Fixpoint walk (names : list string) (curobj : LValue) (ls : LState) : LValue :=
  match names with
  | [] => curobj
  | name :: rest => walk rest (RawGet curobj (VString name) ls) ls
  end.

(** The state in which table [p] has its slot [k] set to [v]. *)
Definition set_slot (p : nat) (k : string) (v : LValue) (ls : LState) : LState :=
  set_tables (alter (insert k v) p) ls.

(** ["can not read <path>"] *)
Definition FileError (path : string) : ApiError :=
  newApiError ApiErrorFile ("can not read " +:+ path) LNil.

Definition asThread (v : LValue) : option (option nat) :=
  match v with VThread x => Some (Some x) | _ => None end.

(** The contract of a mandatory accessor [chk] for kind [K]: the
    argument's payload for a value of kind [K], with the state as it was,
    and a type mismatch naming [K] and the actual kind for every other
    value, an absent argument counting as [LNil]. *)
Definition check_contract {T} (K : LValueType) (payload : LValue -> option T)
    (chk : Z -> M T) : Prop :=
  forall (n : Z) (ls : LState),
    (LValue_Type (Get n ls) = K ->
       exists x, payload (Get n ls) = Some x /\ chk n ls = Ret x ls)
    /\ (LValue_Type (Get n ls) <> K ->
        chk n ls = Raise (TypeMismatch n ls K (LValue_Type (Get n ls))) ls)
    /\ (forall x ls', chk n ls = Ret x ls' ->
        LValue_Type (Get n ls) = K /\ payload (Get n ls) = Some x /\ ls' = ls).

(** What an accessor hands back for a value of its own kind. *)
Definition asInt (v : LValue) : option Z :=
  match v with VNumber x => Some (toInt x) | _ => None end.
Definition asInt64 (v : LValue) : option Z :=
  match v with VNumber x => Some (toInt64 x) | _ => None end.
Definition asNumber (v : LValue) : option LNumber :=
  match v with VNumber x => Some x | _ => None end.
Definition asString (v : LValue) : option string :=
  match v with VString x => Some x | _ => None end.
Definition asBool (v : LValue) : option bool :=
  match v with VBool x => Some x | _ => None end.
Definition asTable (v : LValue) : option (option nat) :=
  match v with VTable x => Some (Some x) | _ => None end.
Definition asFunction (v : LValue) : option (option nat) :=
  match v with VFunction x => Some (Some x) | _ => None end.
Definition asUserData (v : LValue) : option (option nat) :=
  match v with VUserData x => Some (Some x) | _ => None end.

(** The contract of an optional accessor [opt] for kind [K]: the default
    for an absent or [LNil] argument; the argument's own payload for a
    value of kind [K]; a type mismatch for every other value; for an
    argument that is present, a result that does not depend on the
    default; and conversely the default [d] comes back only for an absent
    or [LNil] argument, or when the argument itself carries the value
    [d]. *)
Definition opt_contract {T} (K : LValueType) (payload : LValue -> option T)
    (opt : Z -> T -> M T) : Prop :=
  forall (n : Z) (d : T) (ls : LState),
    (((0 < n)%Z /\ (GetTop ls < n)%Z) \/ Get n ls = LNil -> opt n d ls = Ret d ls)
    /\ (LValue_Type (Get n ls) = K ->
        exists x, payload (Get n ls) = Some x /\ opt n d ls = Ret x ls)
    /\ (LValue_Type (Get n ls) <> LTNil -> LValue_Type (Get n ls) <> K ->
        opt n d ls = Raise (TypeMismatch n ls K (LValue_Type (Get n ls))) ls)
    /\ (Get n ls <> LNil -> forall d', opt n d' ls = opt n d ls)
    /\ (opt n d ls = Ret d ls -> Get n ls = LNil \/ payload (Get n ls) = Some d).

End auxlib.

(** ** A small host and interpreter to run the definitions on

    Numbers are integers, native callbacks are numbered.  The interpreter
    knows three callables: function 0 returns its arguments, function 1
    raises ["boom"], every other one returns nothing.  Userdata 7 has table
    0 as its metatable.  The compiler rejects the source ["1+"] and turns
    any other source into a fresh closure. *)
Definition testHost : Host :=
  {| LNumber := Z; LGFunction := nat; toInt := fun x => x; toInt64 := fun x => x |}.

Definition testInterp : @Interp testHost :=
  {| frameFuncName := fun _ => "f";
     metatable := fun v _ =>
       match v with @VUserData _ 7 => @VTable testHost 0 | _ => @LNil testHost end;
     invoke := fun fn args ls =>
       match fn with
       | @VFunction _ 0 => Ret args ls
       | @VFunction _ 1 =>
           Raise (@newApiError testHost ApiErrorRun "boom" (@LNil testHost)) ls
       | _ => Ret [] ls
       end;
     Load := fun source name ls =>
       if String.eqb source "1+"
       then inr (@newApiError testHost ApiErrorSyntax "unexpected symbol" (@LNil testHost))
       else inl (length (functions ls),
                 set_functions
                   (fun f => f ++ [@Build_LFunction testHost false
                                     (Some {| SourceName := name;
                                              DbgSourcePositions := [1%Z] |})
                                     None]) ls);
     os_Open := fun path => if String.eqb path "ok.lua" then Some "return 1" else None;
     os_Stdin := "";
     filepath_Base := fun path => path |}.

(** Registers [5; "b"; table 0] above a base of 0, one native frame, the
    registry at table 0 and the globals at table 1, both empty. *)
Definition testState : @LState testHost :=
  {| reg := [@VNumber testHost 5%Z; @VString testHost "b"; @VTable testHost 0];
     stack := [@Build_callFrame testHost
                 (@Build_LFunction testHost true None (Some 0)) 0%Z 0];
     tables := [∅; ∅];
     functions := [];
     G_Registry := 0;
     G_Global := 1 |}.

(** The same, with the global ["foo"] bound to the number 5. *)
Definition conflictState : @LState testHost :=
  set_tables (fun _ => [∅; {[ "foo" := @VNumber testHost 5%Z ]}]) testState.

(** The same, with one frame running a compiled function of the source
    ["main.lua"], at its second instruction (lines 10 and 11 recorded). *)
Definition scriptState : @LState testHost :=
  {| reg := [];
     stack := [@Build_callFrame testHost
                 (@Build_LFunction testHost false
                    (Some {| SourceName := "main.lua";
                             DbgSourcePositions := [10%Z; 11%Z] |})
                    None) 2%Z 0];
     tables := [∅; ∅];
     functions := [];
     G_Registry := 0;
     G_Global := 1 |}.

(** Table 0 serves as metatable (of userdata 7) and maps ["__tostring"] to
    function 0. *)
Definition metaState : @LState testHost :=
  set_tables (fun _ => [{[ "__tostring" := @VFunction testHost 0 ]}; ∅]) testState.

(** One function object is allocated already, so that the next chunk
    loaded becomes function 1, the one that raises ["boom"]. *)
Definition boomState : @LState testHost :=
  set_functions (fun _ => [@Build_LFunction testHost true None (Some 0)]) testState.

(** The function set of the module ["foo"]: two callbacks. *)
Definition fooFuncs : list (string * @LGFunction testHost) := [("a", 3); ("b", 4)].

(** The module ["foo"] is loaded already: the registry lists table 2 as
    the loaded-modules table, which records table 3 under ["foo"]. *)
Definition loadedState : @LState testHost :=
  set_tables (fun _ => [{[ "_LOADED" := @VTable testHost 2 ]}; ∅;
                        {[ "foo" := @VTable testHost 3 ]}; ∅]) testState.

(** The state after [FindTable] has created the path a.b under the
    globals of [testState]. *)
Definition pathState : @LState testHost :=
  match @FindTable testHost (@VTable testHost 1) "a.b" 4 testState with
  | Ret _ ls => ls
  | Raise _ ls => ls
  end.

(** The states after registering the type name ["A"], and then ["B"]. *)
Definition typeStateA : @LState testHost :=
  match @NewTypeMetatable testHost "A" testState with
  | Ret _ ls => ls
  | Raise _ ls => ls
  end.

Definition typeStateAB : @LState testHost :=
  match @NewTypeMetatable testHost "B" typeStateA with
  | Ret _ ls => ls
  | Raise _ ls => ls
  end.

(** Two states with aliased tables.  In the first the global ["m"] is the
    loaded-modules table itself (table 2); in the second the global ["r"]
    is the registry root (table 0).  Either is reached through the host
    API by storing the table in a global. *)
Definition aliasLoadedState : @LState testHost :=
  set_tables (fun _ => [{[ "_LOADED" := @VTable testHost 2 ]};
                        {[ "m" := @VTable testHost 2 ]}; ∅]) testState.

Definition aliasRegistryState : @LState testHost :=
  set_tables (fun _ => [{[ "_LOADED" := @VTable testHost 2 ]};
                        {[ "r" := @VTable testHost 0 ]}; ∅]) testState.

(** A function set with the one entry ["m"], and one with the one entry
    ["_LOADED"]. *)
Definition mFuncs : list (string * @LGFunction testHost) := [("m", 3)].
Definition loadedFuncs : list (string * @LGFunction testHost) := [("_LOADED", 3)].

(** * Properties *)

Section properties.
Context `{Interp}.

(** ** Argument access *)

Lemma Get_beyond_arity (n : Z) (ls : LState) :
  (0 < n)%Z -> (GetTop ls < n)%Z -> Get n ls = LNil.
Proof.
  intros Hpos Hn. unfold Get, GetTop in *.
  destruct (Z.ltb_spec 0 n) as [_|?]; [|lia].
  destruct (Z.ltb_spec (Z.of_nat (currentLocalBase ls) + n - 1) (reg_Top ls));
    [lia|reflexivity].
Qed.

Lemma Get_within_arity (n : Z) (ls : LState) :
  (1 <= n <= GetTop ls)%Z ->
  reg ls !! (currentLocalBase ls + Z.to_nat (n - 1))%nat = Some (Get n ls).
Proof.
  intros [Hlo Hhi]. unfold Get, GetTop, reg_Top in *.
  destruct (Z.ltb_spec 0 n) as [_|?]; [|lia].
  destruct (Z.ltb_spec (Z.of_nat (currentLocalBase ls) + n - 1)
              (Z.of_nat (length (reg ls)))) as [Hlt|?]; [|lia].
  replace (Z.to_nat (Z.of_nat (currentLocalBase ls) + n - 1))
    with (currentLocalBase ls + Z.to_nat (n - 1))%nat by lia.
  destruct (reg ls !! (currentLocalBase ls + Z.to_nat (n - 1))%nat) as [v|] eqn:E;
    [reflexivity|].
  apply lookup_ge_None in E. lia.
Qed.

Lemma append_assoc (a b c : string) : (a +:+ b) +:+ c = a +:+ (b +:+ c).
Proof.
  induction a as [|x a IH]; [reflexivity|].
  change (String x ((a +:+ b) +:+ c) = String x (a +:+ (b +:+ c))).
  by rewrite IH.
Qed.

Lemma ArgError_raises {A} (n : Z) (message : string) (ls : LState) :
  ArgError (A := A) n message ls = Raise (bad_argument n ls message) ls.
Proof. reflexivity. Qed.

Lemma TypeError_raises {A} (n : Z) (typ : LValueType) (ls : LState) :
  TypeError (A := A) n typ ls
  = Raise (TypeMismatch n ls typ (LValue_Type (Get n ls))) ls.
Proof.
  unfold TypeError, TypeMismatch, bad_argument, RaiseError.
  by rewrite !append_assoc.
Qed.

(** C2. [CheckAny n] raises ArgumentMissing for every position beyond the
    arity of the call, and for a position within the arity it returns the
    value stored in that argument register, as it is; the state is left
    untouched either way. *)
Theorem CheckAny_arity (n : Z) (ls : LState) :
  ((GetTop ls < n)%Z -> CheckAny n ls = Raise (ArgumentMissing n ls) ls)
  /\ ((1 <= n <= GetTop ls)%Z ->
      exists v, reg ls !! (currentLocalBase ls + Z.to_nat (n - 1))%nat = Some v
                /\ CheckAny n ls = Ret v ls).
Proof.
  split.
  - intros Hn. unfold CheckAny.
    rewrite Z.gtb_ltb. destruct (Z.ltb_spec (GetTop ls) n); [|lia].
    apply ArgError_raises.
  - intros Hn. exists (Get n ls). split; [by apply Get_within_arity|].
    unfold CheckAny. rewrite Z.gtb_ltb.
    destruct (Z.ltb_spec (GetTop ls) n); [lia|reflexivity].
Qed.

(** One proof script serves the eight optional accessors: case on the
    value found at the position. *)
Ltac opt_contract_tac :=
  intros n d ls; rewrite ?TypeError_raises;
  repeat split;
  [ intros [[Hpos Hn]|Hnil];
    [rewrite (Get_beyond_arity n ls Hpos Hn)|rewrite Hnil]; reflexivity
  | destruct (Get n ls); simpl; intros; try discriminate; eauto
  | destruct (Get n ls); simpl; intros; congruence
  | destruct (Get n ls); simpl; intros; congruence
  | destruct (Get n ls); simpl; intros Hret;
    first [ by left | discriminate Hret | right; congruence ] ].

Lemma OptInt_contract : opt_contract LTNumber asInt OptInt.
Proof. unfold opt_contract, OptInt. opt_contract_tac. Qed.
Lemma OptInt64_contract : opt_contract LTNumber asInt64 OptInt64.
Proof. unfold opt_contract, OptInt64. opt_contract_tac. Qed.
Lemma OptNumber_contract : opt_contract LTNumber asNumber OptNumber.
Proof. unfold opt_contract, OptNumber. opt_contract_tac. Qed.
Lemma OptString_contract : opt_contract LTString asString OptString.
Proof. unfold opt_contract, OptString. opt_contract_tac. Qed.
Lemma OptBool_contract : opt_contract LTBool asBool OptBool.
Proof. unfold opt_contract, OptBool. opt_contract_tac. Qed.
Lemma OptTable_contract : opt_contract LTTable asTable OptTable.
Proof. unfold opt_contract, OptTable. opt_contract_tac. Qed.
Lemma OptFunction_contract : opt_contract LTFunction asFunction OptFunction.
Proof. unfold opt_contract, OptFunction. opt_contract_tac. Qed.
Lemma OptUserData_contract : opt_contract LTUserData asUserData OptUserData.
Proof. unfold opt_contract, OptUserData. opt_contract_tac. Qed.

(** X2. For an argument that is present (not nil), each optional
    accessor does what the mandatory accessor of the same kind does, the
    same result or the same error, whatever the default is. *)
Lemma Opt_like_Check (n : Z) (ls : LState) :
  Get n ls <> LNil ->
  (forall d, OptInt n d ls = CheckInt n ls)
  /\ (forall d, OptInt64 n d ls = CheckInt64 n ls)
  /\ (forall d, OptNumber n d ls = CheckNumber n ls)
  /\ (forall d, OptString n d ls = CheckString n ls)
  /\ (forall d, OptBool n d ls = CheckBool n ls)
  /\ (forall d, OptTable n d ls = CheckTable n ls)
  /\ (forall d, OptFunction n d ls = CheckFunction n ls)
  /\ (forall d, OptUserData n d ls = CheckUserData n ls).
Proof.
  intros Hpresent.
  unfold OptInt, OptInt64, OptNumber, OptString, OptBool, OptTable, OptFunction,
    OptUserData, CheckInt, CheckInt64, CheckNumber, CheckString, CheckBool,
    CheckTable, CheckFunction, CheckUserData.
  repeat split; intros d; by destruct (Get n ls).
Qed.

(** C1. Each optional accessor returns the caller's default when the
    argument is absent or [LNil], and only then uses it: for an argument of
    its own kind it returns the argument's payload, for an argument of any
    other kind it raises a type mismatch naming the expected and the
    actual kind, and in both cases the outcome is the same whatever the
    default is.  So the value [d] comes back exactly when the argument is
    absent or [LNil], the one other way being an argument of the right
    kind that carries [d] itself. *)
Theorem Opt_default_only_when_absent_or_nil :
  opt_contract LTNumber asInt OptInt
  /\ opt_contract LTNumber asInt64 OptInt64
  /\ opt_contract LTNumber asNumber OptNumber
  /\ opt_contract LTString asString OptString
  /\ opt_contract LTBool asBool OptBool
  /\ opt_contract LTTable asTable OptTable
  /\ opt_contract LTFunction asFunction OptFunction
  /\ opt_contract LTUserData asUserData OptUserData.
Proof.
  repeat apply conj;
    [ apply OptInt_contract | apply OptInt64_contract
    | apply OptNumber_contract | apply OptString_contract
    | apply OptBool_contract | apply OptTable_contract
    | apply OptFunction_contract | apply OptUserData_contract ].
Qed.

(** ** CheckOption *)

Lemma CheckOption_loop_None (str : string) (options : list string) (i : Z) :
  CheckOption_loop str options i = None <-> str ∉ options.
Proof.
  revert i. induction options as [|v rest IH]; intros i; simpl.
  - split; [intros _; apply not_elem_of_nil|done].
  - destruct (String.eqb_spec v str) as [->|Hne].
    + split; [done|]. intros Hnot. exfalso. apply Hnot. left.
    + rewrite IH, not_elem_of_cons. intuition congruence.
Qed.

Lemma CheckOption_loop_Some (str : string) (options : list string) (i j : Z) :
  CheckOption_loop str options i = Some j ->
  exists k : nat, j = (i + Z.of_nat k)%Z /\ options !! k = Some str
                  /\ forall k', k' < k -> options !! k' <> Some str.
Proof.
  revert i. induction options as [|v rest IH]; intros i; simpl; [done|].
  destruct (String.eqb_spec v str) as [->|Hne].
  - intros [= <-]. exists 0. repeat split; [lia|]. intros k' Hk'. lia.
  - intros Hloop. destruct (IH _ Hloop) as (k & -> & Hk & Hfirst).
    exists (S k). repeat split; [lia|done|].
    intros [|k'] Hk'; simpl; [congruence|]. apply Hfirst. lia.
Qed.

Lemma TypeMismatch_not_InvalidOption (n : Z) (ls : LState) (actual : LValueType)
    (str : string) (opts : list string) :
  TypeMismatch n ls LTString actual <> InvalidOption n ls str opts.
Proof.
  unfold TypeMismatch, InvalidOption, bad_argument, newApiError.
  intros [= Hmsg].
  do 5 apply String.app_inj in Hmsg.
  cbv [LValueType_String String.append] in Hmsg. discriminate Hmsg.
Qed.

(** C10. [CheckOption] on a value that is no string raises the type
    mismatch of the string checker (string expected), which is no
    InvalidOption error; an InvalidOption error, listing the options
    joined by commas, is raised exactly for a string that equals none of
    the options; and for a string among the options the result is the
    0-based index of its first occurrence. *)
Theorem CheckOption_outcomes (n : Z) (options : list string) (ls : LState) :
  (LValue_Type (Get n ls) <> LTString ->
     CheckOption n options ls
     = Raise (TypeMismatch n ls LTString (LValue_Type (Get n ls))) ls
     /\ forall str opts,
         TypeMismatch n ls LTString (LValue_Type (Get n ls))
         <> InvalidOption n ls str opts)
  /\ (forall e ls' str opts,
        CheckOption n options ls = Raise e ls' ->
        e = InvalidOption n ls str opts ->
        exists s, Get n ls = VString s /\ (s ∉ options)
                  /\ e = InvalidOption n ls s options)
  /\ (forall s, Get n ls = VString s -> s ∉ options ->
        CheckOption n options ls = Raise (InvalidOption n ls s options) ls)
  /\ (forall s, Get n ls = VString s -> s ∈ options ->
        exists i : nat,
          CheckOption n options ls = Ret (Z.of_nat i) ls
          /\ options !! i = Some s
          /\ forall j, j < i -> options !! j <> Some s).
Proof.
  assert (Hstr : forall s, Get n ls = VString s ->
            CheckOption n options ls
            = match CheckOption_loop s options 0 with
              | Some i => Ret i ls
              | None => Raise (InvalidOption n ls s options) ls
              end).
  { intros s Hs. unfold CheckOption, bind, CheckString. rewrite Hs.
    destruct (CheckOption_loop s options 0); [reflexivity|].
    apply ArgError_raises. }
  assert (Hother : LValue_Type (Get n ls) <> LTString ->
            CheckOption n options ls
            = Raise (TypeMismatch n ls LTString (LValue_Type (Get n ls))) ls).
  { intros Hty. unfold CheckOption, bind, CheckString.
    destruct (Get n ls) eqn:Hget; simpl in Hty; try congruence;
      by rewrite TypeError_raises, Hget. }
  repeat split.
  - by apply Hother.
  - intros str opts. apply TypeMismatch_not_InvalidOption.
  - intros e ls' str opts Hraise He.
    destruct (decide (LValue_Type (Get n ls) = LTString)) as [Hty|Hty].
    + destruct (Get n ls) as [| | |s| | | |] eqn:Hget; try discriminate Hty.
      exists s. rewrite (Hstr s eq_refl) in Hraise.
      destruct (CheckOption_loop s options 0) eqn:Hloop; [discriminate|].
      injection Hraise as <- _.
      repeat split. by apply (CheckOption_loop_None s options 0).
    + rewrite (Hother Hty) in Hraise. injection Hraise as <- _.
      exfalso. by apply TypeMismatch_not_InvalidOption in He.
  - intros s Hs Hnot. rewrite (Hstr s Hs).
    apply (CheckOption_loop_None s options 0) in Hnot. by rewrite Hnot.
  - intros s Hs Hin. rewrite (Hstr s Hs).
    destruct (CheckOption_loop s options 0) as [j|] eqn:Hloop.
    + destruct (CheckOption_loop_Some _ _ _ _ Hloop) as (k & -> & Hk & Hfirst).
      exists k. by rewrite Z.add_0_l.
    + apply CheckOption_loop_None in Hloop. done.
Qed.

(** ** Where *)

Lemma GetStack_level (k : nat) (ls : LState) :
  GetStack (Z.of_nat k) ls
  = match stack ls !! k with Some cf => Some {| frame := cf |} | None => None end.
Proof.
  unfold GetStack. destruct (Z.ltb_spec (Z.of_nat k) 0); [lia|].
  by rewrite Nat2Z.id.
Qed.

(** C3, as the code has it.  For a level [l >= 0], [Where l] looks at the
    frame [l] levels up from the current one.  If that frame runs a
    compiled function whose current instruction has a recorded line, the
    result is ["<sourceName>:<line>:"]; if it runs a native function (no
    source information) the result is ["[G]:"], the source name ["[G]"]
    followed by the colon and no line; the empty string is returned only
    when there is no frame at that level. *)
Theorem Where_position (level : Z) (ls : LState) :
  (0 <= level)%Z ->
  match stack ls !! Z.to_nat level with
  | None => Where level ls = Ret "" ls
  | Some cf =>
      match Proto (Fn cf) with
      | None => Where level ls = Ret "[G]:" ls
      | Some p =>
          forall line,
            slice_index (DbgSourcePositions p) (Pc cf - 1) = Some line ->
            Where level ls = Ret (SourceName p +:+ ":" +:+ pretty line +:+ ":") ls
      end
  end.
Proof.
  intros Hlevel. unfold Where.
  assert (Hframe : GetStack level ls
            = match stack ls !! Z.to_nat level with
              | Some cf => Some {| frame := cf |}
              | None => None
              end).
  { rewrite <- (Z2Nat.id level Hlevel) at 1. apply GetStack_level. }
  rewrite Hframe.
  destruct (stack ls !! Z.to_nat level) as [cf|]; [|reflexivity].
  simpl. destruct (Proto (Fn cf)) as [p|]; [|reflexivity].
  intros line Hline. by rewrite Hline.
Qed.

(** ** CallMeta *)

Lemma set_reg_twice (f g : list LValue -> list LValue) (ls : LState) :
  set_reg g (set_reg f ls) = set_reg (fun r => g (f r)) ls.
Proof. by destruct ls. Qed.

(** A call of [op] on the arguments [args] pushed on top of the
    registers: the callee runs on the registers below it, and its results,
    adjusted to [nret], take the place of callee and arguments. *)
Lemma Call_pushed (op : LValue) (args : list LValue) (nret : Z) (ls : LState) :
  Call (Z.of_nat (length args)) nret (set_reg (fun r => r ++ op :: args) ls)
  = match invoke op args ls with
    | Ret rets ls' =>
        Ret tt (set_reg (fun _ => reg ls ++ adjust_results nret rets) ls')
    | Raise e ls' => Raise e ls'
    end.
Proof.
  unfold Call. rewrite Nat2Z.id. cbn [reg set_reg].
  rewrite length_app. cbn [length].
  replace (length (reg ls) + S (length args) - length args - 1)
    with (length (reg ls)) by lia.
  rewrite lookup_app_r, Nat.sub_diag by lia. cbn [lookup list_lookup default].
  rewrite take_app_length, set_reg_twice.
  replace (drop (S (length (reg ls))) (reg ls ++ op :: args)) with args.
  2:{ change (reg ls ++ op :: args) with (reg ls ++ [op] ++ args).
      rewrite app_assoc, drop_app_length'; [done|].
      rewrite length_app. simpl. lia. }
  replace (set_reg (fun _ => reg ls) ls) with ls by (by destruct ls).
  reflexivity.
Qed.

(** C8. [CallMeta v e] looks up the metafield [e] of [v].  If that field
    is a function, it is called with [v] as its only argument under normal
    call semantics: an error it raises propagates, and otherwise its first
    result is returned ([LNil] if it returns none), with the registers as
    they were.  In every other case (no metatable, no such field, a field
    that is no function) the result is [LNil] and nothing is called. *)
Theorem CallMeta_outcomes (obj : LValue) (event : string) (ls : LState) :
  (forall mt, metatable obj ls = VTable mt ->
     metaOp1 obj event ls = RawGet (VTable mt) (VString event) ls)
  /\ (LValue_Type (metatable obj ls) <> LTTable -> CallMeta obj event ls = Ret LNil ls)
  /\ (LValue_Type (metaOp1 obj event ls) <> LTFunction ->
      CallMeta obj event ls = Ret LNil ls)
  /\ (LValue_Type (metaOp1 obj event ls) = LTFunction ->
      CallMeta obj event ls
      = match invoke (metaOp1 obj event ls) [obj] ls with
        | Ret rets ls' =>
            Ret (default LNil (head rets)) (set_reg (fun _ => reg ls) ls')
        | Raise e ls' => Raise e ls'
        end).
Proof.
  assert (Hnot : LValue_Type (metaOp1 obj event ls) <> LTFunction ->
            CallMeta obj event ls = Ret LNil ls).
  { intros Hty. unfold CallMeta, bind, gets.
    destruct (decide (LValue_Type (metaOp1 obj event ls) = LTFunction)); done. }
  repeat apply conj.
  - intros mt Hmt. unfold metaOp1. by rewrite Hmt.
  - intros Hmt. apply Hnot. unfold metaOp1.
    destruct (metatable obj ls); simpl in *; congruence.
  - exact Hnot.
  - intros Hty. unfold CallMeta, bind at 1, gets.
    destruct (decide (LValue_Type (metaOp1 obj event ls) = LTFunction)); [|done].
    set (op := metaOp1 obj event ls).
    unfold bind, Push, modify. rewrite set_reg_twice.
    pose proof (Call_pushed op [obj] 1 ls) as Hcall. cbn [length] in Hcall.
    replace (set_reg (fun r => (r ++ [op]) ++ [obj]) ls)
      with (set_reg (fun r => r ++ [op; obj]) ls)
      by (destruct ls; unfold set_reg; cbn [reg];
          by rewrite <- (app_assoc _ [op] [obj])).
    change (Z.of_nat 1) with 1%Z in Hcall. rewrite Hcall.
    destruct (invoke op [obj] ls) as [rets ls'|err ls']; [|reflexivity].
    unfold Pop. rewrite set_reg_twice. cbn [reg set_reg].
    assert (Hadj : adjust_results 1 rets = [default LNil (head rets)])
      by (by destruct rets).
    rewrite Hadj, last_snoc. cbn [default]. f_equal.
    destruct ls'; cbn.
    replace (length (reg ls ++ [default LNil (head rets)]) - 1)
      with (length (reg ls)) by (rewrite length_app; simpl; lia).
    by rewrite take_app_length.
Qed.

(** ** DoString and DoFile *)

(** Running a loaded chunk: the chunk is pushed and called with no
    argument under protection.  An error it raises comes back as a value,
    with the registers cut back to where they were. *)
Lemma run_chunk (fn : nat) (ls : LState) :
  (Push (VFunction fn) ;; PCall 0 MultRet) ls
  = match invoke (VFunction fn) [] ls with
    | Ret rets ls' => Ret None (set_reg (fun _ => reg ls ++ rets) ls')
    | Raise e ls' => Ret (Some e) (set_reg (fun _ => reg ls) ls')
    end.
Proof.
  unfold bind, Push, modify, PCall.
  pose proof (Call_pushed (VFunction fn) [] MultRet ls) as Hcall.
  cbn [length] in Hcall. change (Z.of_nat 0) with 0%Z in Hcall.
  rewrite Hcall. cbn [reg set_reg].
  destruct (invoke (VFunction fn) [] ls) as [rets ls'|e ls']; [reflexivity|].
  assert (Hbelow : take (length (reg ls ++ [VFunction fn]) - Z.to_nat 0 - 1)
                     (reg ls ++ [VFunction fn]) = reg ls).
  { replace (length (reg ls ++ [VFunction fn]) - Z.to_nat 0 - 1)
      with (length (reg ls)) by (rewrite length_app; simpl; lia).
    by rewrite take_app_length. }
  by rewrite Hbelow.
Qed.

(** C9. [DoString] and [DoFile].  When loading fails (a compile error,
    or for [DoFile] a file that cannot be read), that error is the result
    and the state is untouched: nothing was run.  When loading succeeds
    and running the chunk raises an error, the protected call catches it:
    the operation returns it as an error value and does not raise. *)
Theorem Do_returns_errors (source path : string) (ls : LState) :
  (forall err, LoadString source ls = inr err ->
     DoString source ls = Ret (Some err) ls)
  /\ (forall err, LoadFile path ls = inr err ->
       DoFile path ls = Ret (Some err) ls)
  /\ (forall fn ls1 e ls2,
       LoadString source ls = inl (fn, ls1) ->
       invoke (VFunction fn) [] ls1 = Raise e ls2 ->
       DoString source ls = Ret (Some e) (set_reg (fun _ => reg ls1) ls2))
  /\ (forall fn ls1 e ls2,
       LoadFile path ls = inl (fn, ls1) ->
       invoke (VFunction fn) [] ls1 = Raise e ls2 ->
       DoFile path ls = Ret (Some e) (set_reg (fun _ => reg ls1) ls2))
  /\ (forall e ls', DoString source ls <> Raise e ls')
  /\ (forall e ls', DoFile path ls <> Raise e ls').
Proof.
  repeat apply conj.
  - intros err Hload. unfold DoString. by rewrite Hload.
  - intros err Hload. unfold DoFile. by rewrite Hload.
  - intros fn ls1 e ls2 Hload Hrun. unfold DoString.
    by rewrite Hload, run_chunk, Hrun.
  - intros fn ls1 e ls2 Hload Hrun. unfold DoFile.
    by rewrite Hload, run_chunk, Hrun.
  - intros e ls'. unfold DoString.
    destruct (LoadString source ls) as [[fn ls1]|err]; [|done].
    rewrite run_chunk. by destruct (invoke (VFunction fn) [] ls1).
  - intros e ls'. unfold DoFile.
    destruct (LoadFile path ls) as [[fn ls1]|err]; [|done].
    rewrite run_chunk. by destruct (invoke (VFunction fn) [] ls1).
Qed.

(** ** The table heap *)

Lemma RawGet_table (p : nat) (k : string) (ls : LState) :
  RawGet (VTable p) (VString k) ls = default LNil (tableAt p ls !! k).
Proof. reflexivity. Qed.

Lemma tableAt_link_new (p p' : nat) (k : string) (ls : LState) :
  tableAt p' (link_new p k ls)
  = if decide (p' = p /\ p <= length (tables ls))
    then <[k := VTable (length (tables ls))]> (tableAt p ls)
    else tableAt p' ls.
Proof.
  unfold tableAt, link_new. cbn [tables set_tables].
  destruct (decide (p' = p /\ p <= length (tables ls))) as [[-> Hp]|Hne].
  - rewrite list_lookup_alter_eq.
    destruct (decide (p < length (tables ls))) as [Hlt|Hge].
    + rewrite lookup_app_l by done.
      destruct (tables ls !! p) eqn:E; [done|].
      apply lookup_ge_None in E. lia.
    + assert (p = length (tables ls)) as -> by lia.
      rewrite lookup_app_r, Nat.sub_diag by lia. cbn.
      by rewrite (lookup_ge_None_2 (tables ls) (length (tables ls))) by lia.
  - destruct (decide (p' = p)) as [->|Hpp].
    + assert (length (tables ls) < p) by (apply Nat.nlt_ge; intros ?; apply Hne; lia).
      rewrite list_lookup_alter_eq.
      rewrite !lookup_ge_None_2; [done|lia|rewrite length_app; simpl; lia].
    + rewrite list_lookup_alter_ne by done.
      destruct (decide (p' < length (tables ls))) as [Hlt|Hge].
      * by rewrite lookup_app_l.
      * rewrite (lookup_ge_None_2 (tables ls) p') by lia.
        destruct (decide (p' = length (tables ls))) as [->|?].
        -- by rewrite lookup_app_r, Nat.sub_diag by lia.
        -- by rewrite lookup_ge_None_2 by (rewrite length_app; simpl; lia).
Qed.

(** What a slot reads after a creating step: the new table in the slot
    that was linked, the old content everywhere else. *)
Lemma RawGet_link_new (p p' : nat) (k k' : string) (ls : LState) :
  RawGet (VTable p') (VString k') (link_new p k ls)
  = if decide (p' = p /\ k' = k /\ p <= length (tables ls))
    then VTable (length (tables ls))
    else RawGet (VTable p') (VString k') ls.
Proof.
  rewrite !RawGet_table, tableAt_link_new.
  destruct (decide (p' = p /\ p <= length (tables ls))) as [[-> Hp]|Hne].
  - destruct (decide (k' = k)) as [->|Hk].
    + rewrite lookup_insert_eq. by rewrite decide_True.
    + rewrite lookup_insert_ne by done. rewrite decide_False; [done|]. tauto.
  - rewrite decide_False; [done|]. tauto.
Qed.

Lemma length_link_new (p : nat) (k : string) (ls : LState) :
  length (tables (link_new p k ls)) = S (length (tables ls)).
Proof.
  unfold link_new. cbn [tables set_tables].
  rewrite length_alter, length_app. simpl. lia.
Qed.

(** One turn of the loop of [FindTable], by what the slot holds. *)
Lemma FindTable_loop_create (name : string) (rest : list string) (size : Z)
    (p : nat) (ls : LState) :
  RawGet (VTable p) (VString name) ls = LNil ->
  FindTable_loop (name :: rest) size (VTable p) ls
  = FindTable_loop rest size (VTable (length (tables ls))) (link_new p name ls).
Proof.
  intros Hslot. cbn [FindTable_loop LValue_Type].
  destruct (decide (LTTable <> LTTable)); [done|].
  unfold bind at 1, gets. by rewrite Hslot.
Qed.

Lemma FindTable_loop_follow (name : string) (rest : list string) (size : Z)
    (p q : nat) (ls : LState) :
  RawGet (VTable p) (VString name) ls = VTable q ->
  FindTable_loop (name :: rest) size (VTable p) ls
  = FindTable_loop rest size (VTable q) ls.
Proof.
  intros Hslot. cbn [FindTable_loop LValue_Type].
  destruct (decide (LTTable <> LTTable)); [done|].
  unfold bind at 1, gets. rewrite Hslot. cbn [LValue_Type].
  by destruct (decide (LTTable <> LTTable)).
Qed.

Lemma FindTable_loop_blocked (name : string) (rest : list string) (size : Z)
    (p : nat) (ls : LState) :
  LValue_Type (RawGet (VTable p) (VString name) ls) <> LTNil ->
  LValue_Type (RawGet (VTable p) (VString name) ls) <> LTTable ->
  FindTable_loop (name :: rest) size (VTable p) ls = Ret LNil ls.
Proof.
  intros Hnil Htab. cbn [FindTable_loop LValue_Type].
  destruct (decide (LTTable <> LTTable)); [done|].
  unfold bind at 1, gets.
  destruct (RawGet (VTable p) (VString name) ls); cbn in *; try done;
    by destruct (decide _).
Qed.

Lemma FindTable_loop_not_table (names : list string) (size : Z)
    (curobj : LValue) (ls : LState) :
  names <> [] -> LValue_Type curobj <> LTTable ->
  FindTable_loop names size curobj ls = Ret LNil ls.
Proof.
  intros Hnames Hty. destruct names as [|name rest]; [done|].
  cbn [FindTable_loop]. by destruct (decide (LValue_Type curobj <> LTTable)).
Qed.

Lemma RawGet_unallocated (p : nat) (key : LValue) (ls : LState) :
  length (tables ls) <= p -> RawGet (VTable p) key ls = LNil.
Proof.
  intros Hp. destruct key; try reflexivity.
  rewrite RawGet_table. unfold tableAt.
  by rewrite lookup_ge_None_2.
Qed.

Lemma link_new_frame (p : nat) (k : string) (ls : LState) :
  reg (link_new p k ls) = reg ls /\ stack (link_new p k ls) = stack ls
  /\ functions (link_new p k ls) = functions ls
  /\ G_Registry (link_new p k ls) = G_Registry ls
  /\ G_Global (link_new p k ls) = G_Global ls.
Proof. by destruct ls. Qed.

(** [FindTable] only touches the table heap. *)
Lemma FindTable_loop_frame (names : list string) (size : Z) (curobj : LValue)
    (ls : LState) :
  exists v ls',
    FindTable_loop names size curobj ls = Ret v ls'
    /\ reg ls' = reg ls /\ stack ls' = stack ls /\ functions ls' = functions ls
    /\ G_Registry ls' = G_Registry ls /\ G_Global ls' = G_Global ls
    /\ length (tables ls) <= length (tables ls').
Proof.
  revert curobj ls. induction names as [|name rest IH]; intros curobj ls.
  - exists curobj, ls. by repeat split.
  - destruct (decide (LValue_Type curobj = LTTable)) as [Hty|Hty].
    2:{ exists LNil, ls. rewrite FindTable_loop_not_table by done. by repeat split. }
    destruct curobj as [| | | |p| | |]; try discriminate Hty.
    destruct (RawGet (VTable p) (VString name) ls) as [| | | |q| | |] eqn:Hslot;
      try (exists LNil, ls; rewrite FindTable_loop_blocked by (by rewrite Hslot);
           by repeat split).
    + rewrite FindTable_loop_create by done.
      destruct (IH (VTable (length (tables ls))) (link_new p name ls))
        as (v & ls' & -> & ? & ? & ? & ? & ? & Hlen).
      destruct (link_new_frame p name ls) as (? & ? & ? & ? & ?).
      rewrite length_link_new in Hlen.
      exists v, ls'. repeat split; try congruence. lia.
    + rewrite (FindTable_loop_follow _ _ _ _ q) by done. apply IH.
Qed.

(** [FindTable] never overwrites a slot that is set. *)
Lemma FindTable_loop_keeps_slots (names : list string) (size : Z)
    (curobj : LValue) (ls : LState) (v : LValue) (ls' : LState) :
  FindTable_loop names size curobj ls = Ret v ls' ->
  forall p k,
    RawGet (VTable p) (VString k) ls <> LNil ->
    RawGet (VTable p) (VString k) ls' = RawGet (VTable p) (VString k) ls.
Proof.
  revert curobj ls. induction names as [|name rest IH]; intros curobj ls Hrun p k Hset.
  - cbn in Hrun. by injection Hrun as _ <-.
  - destruct (decide (LValue_Type curobj = LTTable)) as [Hty|Hty].
    2:{ rewrite FindTable_loop_not_table in Hrun by done. by injection Hrun as _ <-. }
    destruct curobj as [| | | |c| | |]; try discriminate Hty.
    destruct (RawGet (VTable c) (VString name) ls) as [| | | |q| | |] eqn:Hslot;
      try (rewrite FindTable_loop_blocked in Hrun by (by rewrite Hslot);
           by injection Hrun as _ <-).
    + rewrite FindTable_loop_create in Hrun by done.
      assert (Hsame : RawGet (VTable p) (VString k) (link_new c name ls)
                      = RawGet (VTable p) (VString k) ls).
      { rewrite RawGet_link_new. rewrite decide_False; [done|].
        intros (-> & -> & _). congruence. }
      rewrite <- Hsame. apply (IH _ _ Hrun). by rewrite Hsame.
    + rewrite (FindTable_loop_follow _ _ _ _ q) in Hrun by done.
      by apply (IH _ _ Hrun).
Qed.

Lemma FindTable_loop_hits_non_table (names : list string) (size : Z)
    (curobj : LValue) (ls : LState) :
  hits_non_table names curobj ls = true ->
  FindTable_loop names size curobj ls = Ret LNil ls.
Proof.
  revert curobj. induction names as [|name rest IH]; intros curobj Hhit; [done|].
  destruct (decide (LValue_Type curobj = LTTable)) as [Hty|Hty].
  2:{ by rewrite FindTable_loop_not_table. }
  destruct curobj as [| | | |c| | |]; try discriminate Hty.
  cbn [hits_non_table] in Hhit.
  destruct (RawGet (VTable c) (VString name) ls) as [| | | |q| | |] eqn:Hslot;
    try discriminate Hhit;
    try (by rewrite FindTable_loop_blocked by (by rewrite Hslot)).
  rewrite (FindTable_loop_follow _ _ _ _ q) by done. by apply IH.
Qed.

(** C5. If the walk of [FindTable] runs into a value that is no table,
    the root itself or the content of a slot that is already set, the
    result is [LNil] and the state is the one it started from: no slot of
    any table has changed.  More generally [FindTable] never overwrites a
    slot that is set, whatever it holds and whatever the call returns. *)
Theorem FindTable_keeps_non_tables (obj : LValue) (n : string) (size : Z)
    (ls : LState) :
  (hits_non_table (strings_Split n dot) obj ls = true ->
     FindTable obj n size ls = Ret LNil ls)
  /\ (forall v ls', FindTable obj n size ls = Ret v ls' ->
       forall p k,
         RawGet (VTable p) (VString k) ls <> LNil ->
         RawGet (VTable p) (VString k) ls' = RawGet (VTable p) (VString k) ls).
Proof.
  split.
  - apply FindTable_loop_hits_non_table.
  - intros v ls'. apply FindTable_loop_keeps_slots.
Qed.

Lemma split_x_y_z : strings_Split "x.y.z" dot = ["x"; "y"; "z"].
Proof. reflexivity. Qed.

(** C4. On a root table whose slot ["x"] is not set, [FindTable root
    "x.y.z" size] allocates exactly three tables and links them at
    [root.x], [root.x.y] and [root.x.y.z]; no other slot of any table
    changes (so the new tables hold nothing else) and nothing but the
    table heap changes.  It returns the deepest table.  Calling it again
    returns the identical table and leaves the state as it is. *)
Theorem FindTable_creates_path_once (r : nat) (size : Z) (ls : LState) :
  valid_table r ls ->
  RawGet (VTable r) (VString "x") ls = LNil ->
  let n := length (tables ls) in
  exists ls',
    FindTable (VTable r) "x.y.z" size ls = Ret (VTable (n + 2)) ls'
    /\ length (tables ls') = n + 3
    /\ RawGet (VTable r) (VString "x") ls' = VTable n
    /\ RawGet (VTable n) (VString "y") ls' = VTable (n + 1)
    /\ RawGet (VTable (n + 1)) (VString "z") ls' = VTable (n + 2)
    /\ (forall p k,
          (p, k) <> (r, "x") -> (p, k) <> (n, "y") -> (p, k) <> (n + 1, "z") ->
          RawGet (VTable p) (VString k) ls' = RawGet (VTable p) (VString k) ls)
    /\ reg ls' = reg ls /\ stack ls' = stack ls /\ functions ls' = functions ls
    /\ G_Registry ls' = G_Registry ls /\ G_Global ls' = G_Global ls
    /\ FindTable (VTable r) "x.y.z" size ls' = Ret (VTable (n + 2)) ls'.
Proof.
  intros Hr Hx n. unfold valid_table in Hr. fold n in Hr.
  set (ls1 := link_new r "x" ls).
  set (ls2 := link_new n "y" ls1).
  set (ls3 := link_new (n + 1) "z" ls2).
  assert (Hlen1 : length (tables ls1) = n + 1)
    by (unfold ls1; rewrite length_link_new; lia).
  assert (Hlen2 : length (tables ls2) = n + 2)
    by (unfold ls2; rewrite length_link_new; lia).
  assert (Hget1 : forall p k, RawGet (VTable p) (VString k) ls1
            = if decide (p = r /\ k = "x") then VTable n
              else RawGet (VTable p) (VString k) ls).
  { intros p k. unfold ls1. rewrite RawGet_link_new. fold n.
    destruct (decide (p = r /\ k = "x")) as [[-> ->]|Hne].
    - rewrite decide_True; [done|]. repeat split; lia.
    - rewrite decide_False; [done|]. tauto. }
  assert (Hget2 : forall p k, RawGet (VTable p) (VString k) ls2
            = if decide (p = n /\ k = "y") then VTable (n + 1)
              else RawGet (VTable p) (VString k) ls1).
  { intros p k. unfold ls2. rewrite RawGet_link_new, Hlen1.
    destruct (decide (p = n /\ k = "y")) as [[-> ->]|Hne].
    - rewrite decide_True; [done|]. repeat split; lia.
    - rewrite decide_False; [done|]. tauto. }
  assert (Hget3 : forall p k, RawGet (VTable p) (VString k) ls3
            = if decide (p = n + 1 /\ k = "z") then VTable (n + 2)
              else RawGet (VTable p) (VString k) ls2).
  { intros p k. unfold ls3. rewrite RawGet_link_new, Hlen2.
    destruct (decide (p = n + 1 /\ k = "z")) as [[-> ->]|Hne].
    - rewrite decide_True; [done|]. repeat split; lia.
    - rewrite decide_False; [done|]. tauto. }
  assert (Hnew : forall p k, n <= p -> RawGet (VTable p) (VString k) ls = LNil)
    by (intros p k Hp; by apply RawGet_unallocated).
  assert (Hx3 : RawGet (VTable r) (VString "x") ls3 = VTable n).
  { rewrite Hget3, decide_False by lia.
    rewrite Hget2, decide_False by lia.
    by rewrite Hget1, decide_True. }
  assert (Hy3 : RawGet (VTable n) (VString "y") ls3 = VTable (n + 1)).
  { rewrite Hget3, decide_False by lia. by rewrite Hget2, decide_True. }
  assert (Hz3 : RawGet (VTable (n + 1)) (VString "z") ls3 = VTable (n + 2))
    by (by rewrite Hget3, decide_True).
  exists ls3. repeat apply conj.
  - unfold FindTable. rewrite split_x_y_z.
    rewrite FindTable_loop_create by done. fold n ls1.
    rewrite FindTable_loop_create.
    2:{ rewrite Hget1, decide_False by lia. by apply Hnew. }
    rewrite Hlen1. fold ls2.
    rewrite FindTable_loop_create.
    2:{ rewrite Hget2, decide_False by lia.
        rewrite Hget1, decide_False by lia. apply Hnew. lia. }
    rewrite Hlen2. fold ls3. reflexivity.
  - unfold ls3. rewrite length_link_new. lia.
  - exact Hx3.
  - exact Hy3.
  - exact Hz3.
  - intros p k H1 H2 H3.
    rewrite Hget3, decide_False by (intros [-> ->]; done).
    rewrite Hget2, decide_False by (intros [-> ->]; done).
    by rewrite Hget1, decide_False by (intros [-> ->]; done).
  - by destruct ls.
  - by destruct ls.
  - by destruct ls.
  - by destruct ls.
  - by destruct ls.
  - unfold FindTable. rewrite split_x_y_z.
    rewrite (FindTable_loop_follow _ _ _ _ n) by done.
    rewrite (FindTable_loop_follow _ _ _ _ (n + 1)) by done.
    by rewrite (FindTable_loop_follow _ _ _ _ (n + 2)) by done.
Qed.

(** ** RegisterModule *)

Lemma split_LOADED : strings_Split "_LOADED" dot = ["_LOADED"].
Proof. reflexivity. Qed.

(** The walk that runs into a non-table keeps doing so in any state that
    has kept the slots that were set. *)
Lemma hits_non_table_kept (names : list string) (curobj : LValue)
    (ls ls' : LState) :
  (forall p k, RawGet (VTable p) (VString k) ls <> LNil ->
     RawGet (VTable p) (VString k) ls' = RawGet (VTable p) (VString k) ls) ->
  hits_non_table names curobj ls = true ->
  hits_non_table names curobj ls' = true.
Proof.
  intros Hkept. revert curobj.
  induction names as [|name rest IH]; intros curobj Hhit; [done|].
  destruct curobj as [| | | |c| | |]; try done.
  cbn [hits_non_table] in *.
  destruct (RawGet (VTable c) (VString name) ls) eqn:Hslot; try discriminate Hhit;
    (rewrite Hkept by (by rewrite Hslot)); rewrite Hslot; try done.
  by apply IH.
Qed.

Lemma link_new_keeps_slots (c : nat) (name : string) (ls : LState) :
  RawGet (VTable c) (VString name) ls = LNil ->
  forall p k,
    RawGet (VTable p) (VString k) ls <> LNil ->
    RawGet (VTable p) (VString k) (link_new c name ls)
    = RawGet (VTable p) (VString k) ls.
Proof.
  intros Hslot p k Hset. rewrite RawGet_link_new, decide_False; [done|].
  intros (-> & -> & _). congruence.
Qed.

(** [RegisterModule], step by step. *)
Lemma RegisterModule_steps (name : string) (funcs : list (string * LGFunction))
    (ls : LState) :
  RegisterModule name funcs ls
  = match FindTable (VTable (G_Registry ls)) "_LOADED" 1 ls with
    | Ret tb lsA =>
        match GetField tb name lsA with
        | Ret mod_ lsA' =>
            if decide (LValue_Type mod_ <> LTTable) then
              match FindTable (VTable (G_Global lsA')) name
                      (Z.of_nat (length funcs)) lsA' with
              | Ret (VTable q) lsB =>
                  match RegisterModule_loop q funcs lsB with
                  | Ret _ lsC =>
                      match SetField tb name (VTable q) lsC with
                      | Ret _ lsD => Ret (VTable q) lsD
                      | Raise e l => Raise e l
                      end
                  | Raise e l => Raise e l
                  end
              | Ret _ lsB => Raise (NameConflict name) lsB
              | Raise e l => Raise e l
              end
            else Ret mod_ lsA'
        | Raise e l => Raise e l
        end
    | Raise e l => Raise e l
    end.
Proof.
  unfold RegisterModule, bind, gets. change (Get RegistryIndex ls) with (VTable (G_Registry ls)).
  destruct (FindTable _ "_LOADED" 1 ls) as [tb lsA|]; [|done].
  destruct (GetField tb name lsA) as [mod_ lsA'|]; [|done].
  destruct (decide _); [|done].
  change (Get GlobalsIndex lsA') with (VTable (G_Global lsA')).
  by destruct (FindTable _ name _ lsA') as [[| | | |q| | |] lsB|].
Qed.


(** What a slot reads after a raw set. *)
Lemma RawGet_set_slot (p p' : nat) (k k' : string) (v : LValue) (ls : LState) :
  RawGet (VTable p') (VString k') (set_tables (alter (insert k v) p) ls)
  = if decide (p' = p /\ k' = k /\ p < length (tables ls)) then v
    else RawGet (VTable p') (VString k') ls.
Proof.
  rewrite !RawGet_table. unfold tableAt. cbn [tables set_tables].
  destruct (decide (p' = p)) as [->|Hp].
  - rewrite list_lookup_alter_eq.
    destruct (tables ls !! p) as [tb|] eqn:E.
    + apply lookup_lt_Some in E as Hlt. cbn.
      destruct (decide (k' = k)) as [->|Hk].
      * rewrite lookup_insert_eq. by rewrite decide_True.
      * rewrite lookup_insert_ne by done. rewrite decide_False; [done|]. tauto.
    + apply lookup_ge_None in E. cbn. rewrite decide_False; [done|].
      intros (_ & _ & ?). lia.
  - rewrite list_lookup_alter_ne by done. rewrite decide_False; [done|]. tauto.
Qed.

(** The loop that installs the functions: one new function object per
    entry, in the order of the enumeration, each stored under its name in
    the module table; nothing else changes. *)
Lemma RegisterModule_loop_spec (q : nat) (funcs : list (string * LGFunction))
    (ls : LState) :
  exists ls',
    RegisterModule_loop q funcs ls = Ret tt ls'
    /\ functions ls' = functions ls ++ ((fun e => native_function e.2) <$> funcs)
    /\ length (tables ls') = length (tables ls)
    /\ reg ls' = reg ls /\ stack ls' = stack ls
    /\ G_Registry ls' = G_Registry ls /\ G_Global ls' = G_Global ls
    /\ (forall p k, p <> q \/ k ∉ funcs.*1 ->
          RawGet (VTable p) (VString k) ls' = RawGet (VTable p) (VString k) ls)
    /\ (valid_table q ls -> NoDup funcs.*1 ->
        forall i fname fn, funcs !! i = Some (fname, fn) ->
          RawGet (VTable q) (VString fname) ls'
          = VFunction (length (functions ls) + i)).
Proof.
  revert ls. induction funcs as [|[fname0 fn0] rest IH]; intros ls.
  - exists ls. repeat apply conj; try done. by rewrite app_nil_r.
  - set (ls1 := set_functions (fun f => f ++ [native_function fn0]) ls).
    set (ls2 := set_tables
                  (alter (insert fname0 (VFunction (length (functions ls)))) q) ls1).
    destruct (IH ls2) as (ls' & Hrun & Hfun & Hlen & Hreg & Hstack & HR & HG
                          & Hother & Hentries).
    assert (Hslot2 : forall p k,
              RawGet (VTable p) (VString k) ls2
              = if decide (p = q /\ k = fname0 /\ q < length (tables ls))
                then VFunction (length (functions ls))
                else RawGet (VTable p) (VString k) ls)
      by (intros p k; unfold ls2; by rewrite RawGet_set_slot).
    exists ls'. repeat apply conj.
    + exact Hrun.
    + rewrite Hfun. unfold ls2, ls1. cbn [functions set_tables set_functions fmap list_fmap].
      by rewrite <- app_assoc.
    + rewrite Hlen. unfold ls2, ls1. cbn [tables set_tables set_functions].
      by rewrite length_alter.
    + by rewrite Hreg.
    + by rewrite Hstack.
    + by rewrite HR.
    + by rewrite HG.
    + intros p k Hpk. rewrite Hother.
      * rewrite Hslot2, decide_False; [done|].
        intros (-> & -> & _). destruct Hpk as [?|Hk]; [done|].
        apply Hk. cbn. left.
      * destruct Hpk as [?|Hk]; [by left|right].
        intros Hin. apply Hk. cbn. by right.
    + intros Hq Hnodup i fname fn Hi. cbn in Hnodup.
      apply NoDup_cons in Hnodup as [Hfresh Hnodup].
      destruct i as [|j]; cbn in Hi.
      * injection Hi as -> ->. rewrite Hother by (by right).
        rewrite Hslot2, decide_True by done. f_equal. lia.
      * assert (Hq2 : valid_table q ls2).
        { unfold valid_table, ls2, ls1 in *. cbn [tables set_tables set_functions].
          by rewrite length_alter. }
        rewrite (Hentries Hq2 Hnodup j fname fn Hi).
        unfold ls2, ls1. cbn [functions set_tables set_functions].
        rewrite length_app. cbn. f_equal. lia.
Qed.

(** Table references stored in slots denote allocated tables. *)
Lemma link_new_slots_valid (c : nat) (name : string) (ls : LState) :
  (forall p k q, RawGet (VTable p) (VString k) ls = VTable q -> valid_table q ls) ->
  forall p k q,
    RawGet (VTable p) (VString k) (link_new c name ls) = VTable q ->
    valid_table q (link_new c name ls).
Proof.
  intros Hvalid p k q. unfold valid_table. rewrite RawGet_link_new, length_link_new.
  case_decide.
  - intros [= <-]. lia.
  - intros Hq. apply Hvalid in Hq. unfold valid_table in Hq. lia.
Qed.

(** From a valid root in a heap without dangling references, [FindTable]
    returns an allocated table (or [LNil]). *)
Lemma FindTable_loop_valid (names : list string) (size : Z) (c : nat)
    (ls : LState) (q : nat) (ls' : LState) :
  (forall p k q, RawGet (VTable p) (VString k) ls = VTable q -> valid_table q ls) ->
  valid_table c ls ->
  FindTable_loop names size (VTable c) ls = Ret (VTable q) ls' ->
  valid_table q ls'.
Proof.
  revert c ls. induction names as [|name rest IH]; intros c ls Hvalid Hc Hrun.
  - cbn in Hrun. by injection Hrun as <- <-.
  - destruct (RawGet (VTable c) (VString name) ls) as [| | | |d| | |] eqn:Hslot;
      try (rewrite FindTable_loop_blocked in Hrun by (by rewrite Hslot);
           discriminate Hrun).
    + rewrite FindTable_loop_create in Hrun by done.
      apply (IH (length (tables ls)) (link_new c name ls)
               (link_new_slots_valid c name ls Hvalid)); [|done].
      unfold valid_table. rewrite length_link_new. lia.
    + rewrite (FindTable_loop_follow _ _ _ _ d) in Hrun by done.
      apply (IH d ls Hvalid); [|done]. by apply (Hvalid c name).
Qed.

(** The first step of [RegisterModule]: the loaded-modules table is found
    or created in the registry.  Either the slot holds a value that is no
    table, and the result is [LNil], or a table [t] comes back that the
    registry lists under ["_LOADED"]. *)
Lemma FindTable_LOADED (ls : LState) (tb : LValue) (lsA : LState) :
  heap_wf ls ->
  FindTable (VTable (G_Registry ls)) "_LOADED" 1 ls = Ret tb lsA ->
  (tb = LNil /\ lsA = ls)
  \/ exists t,
       tb = VTable t
       /\ RawGet (VTable (G_Registry ls)) (VString "_LOADED") lsA = VTable t
       /\ heap_wf lsA /\ valid_table t lsA
       /\ G_Registry lsA = G_Registry ls /\ G_Global lsA = G_Global ls
       /\ ((lsA = ls /\ RawGet (VTable (G_Registry ls)) (VString "_LOADED") ls = VTable t)
           \/ (lsA = link_new (G_Registry ls) "_LOADED" ls
               /\ t = length (tables ls)
               /\ RawGet (VTable (G_Registry ls)) (VString "_LOADED") ls = LNil)).
Proof.
  intros (HR & HG & Hslots) Hrun. unfold FindTable in Hrun.
  rewrite split_LOADED in Hrun.
  destruct (RawGet (VTable (G_Registry ls)) (VString "_LOADED") ls)
    as [| | | |t| | |] eqn:Hslot;
    try (rewrite FindTable_loop_blocked in Hrun by (by rewrite Hslot);
         injection Hrun as <- <-; by left).
  - rewrite FindTable_loop_create in Hrun by done. cbn in Hrun.
    injection Hrun as <- <-. right. exists (length (tables ls)).
    destruct (link_new_frame (G_Registry ls) "_LOADED" ls) as (_ & _ & _ & HR' & HG').
    unfold valid_table in *.
    repeat apply conj; try done.
    + rewrite RawGet_link_new, decide_True; [done|]. repeat split; lia.
    + unfold valid_table. rewrite HR', length_link_new. lia.
    + unfold valid_table. rewrite HG', length_link_new. lia.
    + by apply link_new_slots_valid.
    + rewrite length_link_new. lia.
    + by right.
  - rewrite (FindTable_loop_follow _ _ _ _ t) in Hrun by done. cbn in Hrun.
    injection Hrun as <- <-. right. exists t.
    repeat apply conj; try done.
    + by apply (Hslots _ _ _ Hslot).
    + by left.
Qed.

(** A table without any slot set ends every walk at once. *)
Lemma hits_non_table_empty (names : list string) (n : nat) (ls : LState) :
  (forall k, RawGet (VTable n) (VString k) ls = LNil) ->
  hits_non_table names (VTable n) ls = false.
Proof.
  intros Hempty. destruct names as [|name rest]; cbn [hits_non_table];
    by rewrite ?Hempty.
Qed.

Lemma link_new_fresh_empty (c : nat) (k k' : string) (ls : LState) :
  valid_table c ls ->
  RawGet (VTable (length (tables ls))) (VString k') (link_new c k ls) = LNil.
Proof.
  intros Hc. rewrite RawGet_link_new. case_decide as Hhit.
  - destruct Hhit as (? & _). unfold valid_table in Hc. lia.
  - by apply RawGet_unallocated.
Qed.

(** A walk that meets no non-table still meets none after a creating
    step. *)
Lemma hits_non_table_link_new (names : list string) (curobj : LValue)
    (c : nat) (k : string) (ls : LState) :
  valid_table c ls ->
  hits_non_table names curobj ls = false ->
  hits_non_table names curobj (link_new c k ls) = false.
Proof.
  intros Hc. revert curobj.
  induction names as [|name rest IH]; intros curobj Hfree; [done|].
  destruct curobj as [| | | |p| | |]; try discriminate Hfree.
  cbn [hits_non_table] in *. rewrite RawGet_link_new. case_decide as Hhit.
  - apply hits_non_table_empty. intros k'. by apply link_new_fresh_empty.
  - destruct (RawGet (VTable p) (VString name) ls); try done. by apply IH.
Qed.

(** From an allocated root in a heap without dangling references, a walk
    that meets no non-table makes [FindTable] return a table. *)
Lemma FindTable_loop_table (names : list string) (size : Z) (c : nat)
    (ls : LState) :
  (forall p k q, RawGet (VTable p) (VString k) ls = VTable q -> valid_table q ls) ->
  valid_table c ls ->
  hits_non_table names (VTable c) ls = false ->
  exists q ls', FindTable_loop names size (VTable c) ls = Ret (VTable q) ls'.
Proof.
  revert c ls. induction names as [|name rest IH]; intros c ls Hvalid Hc Hfree.
  - by exists c, ls.
  - cbn [hits_non_table] in Hfree.
    destruct (RawGet (VTable c) (VString name) ls) as [| | | |d| | |] eqn:Hslot;
      try discriminate Hfree.
    + rewrite FindTable_loop_create by done.
      apply IH.
      * by apply link_new_slots_valid.
      * unfold valid_table. rewrite length_link_new. lia.
      * apply hits_non_table_empty. intros k'. by apply link_new_fresh_empty.
    + rewrite (FindTable_loop_follow _ _ _ _ d) by done.
      apply IH; [done| |done]. by apply (Hvalid c name).
Qed.

(** C6, as the code has it.  In a state whose table references are all
    allocated, where [name] is not loaded yet (the registry lists no
    loaded-modules table yet, or one, other than the registry root, that
    records no table under [name]) and the walk from the globals along [name] meets no non-table,
    [RegisterModule name funcs] returns a table [q].  Every entry of
    [funcs] is then present in [q] as a function object wrapping the
    entry's callback (the one exception: an entry called [name] itself
    when [q] is the loaded-modules table, whose slot [name] records the
    module).  And a second call returns the identical table [q] and leaves
    the state exactly as it is, so nothing is merged again (provided the
    first call did not install an entry ["_LOADED"] into the registry root
    itself). *)
Theorem RegisterModule_twice (name : string) (funcs : list (string * LGFunction))
    (ls : LState) :
  heap_wf ls ->
  NoDup funcs.*1 ->
  (RawGet (VTable (G_Registry ls)) (VString "_LOADED") ls = LNil
   \/ exists t, RawGet (VTable (G_Registry ls)) (VString "_LOADED") ls = VTable t
                /\ t <> G_Registry ls
                /\ LValue_Type (RawGet (VTable t) (VString name) ls) <> LTTable) ->
  hits_non_table (strings_Split name dot) (VTable (G_Global ls)) ls = false ->
  exists q ls1,
    RegisterModule name funcs ls = Ret (VTable q) ls1
    /\ (forall fname fn, (fname, fn) ∈ funcs ->
          fname <> name
          \/ RawGet (VTable (G_Registry ls1)) (VString "_LOADED") ls1 <> VTable q ->
          exists f, RawGet (VTable q) (VString fname) ls1 = VFunction f
                    /\ functions ls1 !! f = Some (native_function fn))
    /\ (q <> G_Registry ls \/ "_LOADED" ∉ funcs.*1 ->
        RegisterModule name funcs ls1 = Ret (VTable q) ls1).
Proof.
  intros Hwf Hnodup Hloaded Hfree.
  rewrite RegisterModule_steps.
  (* the loaded-modules table [t] is found or created *)
  assert (exists t lsA,
            FindTable (VTable (G_Registry ls)) "_LOADED" 1 ls = Ret (VTable t) lsA
            /\ t <> G_Registry ls
            /\ LValue_Type (RawGet (VTable t) (VString name) lsA) <> LTTable
            /\ hits_non_table (strings_Split name dot) (VTable (G_Global ls)) lsA
               = false)
    as (t & lsA & HfindA & HtR & Hmod & HfreeA).
  { destruct Hwf as (HR & _).
    destruct Hloaded as [Hnone|(t & Hsome & HtR & Hmod)].
    - exists (length (tables ls)), (link_new (G_Registry ls) "_LOADED" ls).
      unfold FindTable. rewrite split_LOADED.
      rewrite FindTable_loop_create by done.
      repeat apply conj.
      + reflexivity.
      + unfold valid_table in HR. lia.
      + by rewrite link_new_fresh_empty.
      + by apply hits_non_table_link_new.
    - exists t, ls. unfold FindTable. rewrite split_LOADED.
      by rewrite (FindTable_loop_follow _ _ _ _ t). }
  rewrite HfindA.
  destruct (FindTable_LOADED ls (VTable t) lsA Hwf HfindA)
    as [[Hnil _]|(t' & Ht' & HslotA & HwfA & HtA & HRA & HGA & _)];
    [discriminate Hnil|].
  injection Ht' as <-.
  unfold GetField at 1.
  destruct (decide (LValue_Type (RawGet (VTable t) (VString name) lsA) <> LTTable))
    as [_|Hc]; [|by destruct Hc].
  (* the module table [q] is found or created under the globals *)
  rewrite HGA. unfold FindTable.
  destruct HwfA as (_ & HGvalid & Hslots). rewrite HGA in HGvalid.
  destruct (FindTable_loop_table (strings_Split name dot) (Z.of_nat (length funcs))
              (G_Global ls) lsA Hslots HGvalid HfreeA) as (q & lsB & HfindB).
  rewrite HfindB.
  destruct (FindTable_loop_frame (strings_Split name dot) (Z.of_nat (length funcs))
              (VTable (G_Global ls)) lsA)
    as (v' & lsB' & HfindB' & _ & _ & HfunB & HRB & HGB & HlenB).
  rewrite HfindB in HfindB'. injection HfindB' as <- <-.
  assert (HqB : valid_table q lsB)
    by (by apply (FindTable_loop_valid _ _ _ _ _ _ Hslots HGvalid HfindB)).
  assert (HslotB : RawGet (VTable (G_Registry ls)) (VString "_LOADED") lsB = VTable t).
  { rewrite (FindTable_loop_keeps_slots _ _ _ _ _ _ HfindB) by (by rewrite HslotA).
    exact HslotA. }
  (* the functions are installed and the module is recorded as loaded *)
  destruct (RegisterModule_loop_spec q funcs lsB)
    as (lsC & HrunC & HfunC & HlenC & _ & _ & HRC & HGC & HotherC & HentriesC).
  rewrite HrunC. cbn [SetField RawSet modify].
  set (ls1 := set_tables (alter (insert name (VTable q)) t) lsC).
  assert (HtC : t < length (tables lsC)).
  { unfold valid_table in HtA. lia. }
  assert (HR1 : G_Registry ls1 = G_Registry ls).
  { unfold ls1. cbn [G_Registry set_tables]. congruence. }
  exists q, ls1. repeat apply conj.
  - reflexivity.
  - intros fname fn Hin Hdistinct.
    assert (Hqt : fname <> name \/ q <> t).
    { destruct Hdistinct as [?|Hne]; [by left|].
      right. intros ->. apply Hne. rewrite HR1. unfold ls1.
      rewrite RawGet_set_slot, decide_False by (intros (? & _); congruence).
      rewrite HotherC by (left; congruence). exact HslotB. }
    apply list_elem_of_lookup in Hin as [i Hi].
    exists (length (functions lsB) + i). split.
    + unfold ls1. rewrite RawGet_set_slot, decide_False.
      * by apply (HentriesC HqB Hnodup i fname fn).
      * intros (-> & -> & _). destruct Hqt; congruence.
    + unfold ls1. cbn [functions set_tables]. rewrite HfunC.
      rewrite lookup_app_r, Nat.add_comm, Nat.add_sub by lia.
      by rewrite list_lookup_fmap, Hi.
  - intros Hsep.
    assert (Hslot1 : RawGet (VTable (G_Registry ls)) (VString "_LOADED") ls1 = VTable t).
    { unfold ls1. rewrite RawGet_set_slot, decide_False by (intros (? & _); congruence).
      rewrite HotherC; [exact HslotB|]. destruct Hsep; [left; congruence|by right]. }
    assert (Hmod1 : RawGet (VTable t) (VString name) ls1 = VTable q).
    { unfold ls1. by rewrite RawGet_set_slot, decide_True. }
    rewrite RegisterModule_steps, HR1. unfold FindTable at 1. rewrite split_LOADED.
    rewrite (FindTable_loop_follow _ _ _ _ t) by done. cbn [FindTable_loop ret].
    unfold GetField. rewrite Hmod1. cbn [LValue_Type].
    by destruct (decide (LTTable <> LTTable)).
Qed.

End properties.

(** * Further properties of auxlib.go *)

Section coverage.
Context `{Interp}.

(** ** The mandatory accessors *)

Ltac check_contract_tac :=
  intros n ls; rewrite ?TypeError_raises;
  repeat apply conj;
  [ destruct (Get n ls); simpl; intros; try discriminate; eauto
  | destruct (Get n ls); simpl; intros; congruence
  | intros x ls'; destruct (Get n ls); simpl; intros Hret;
    first [ discriminate Hret | by injection Hret as <- <- ] ].

Lemma CheckInt_contract : check_contract LTNumber asInt CheckInt.
Proof. unfold check_contract, CheckInt. check_contract_tac. Qed.
Lemma CheckInt64_contract : check_contract LTNumber asInt64 CheckInt64.
Proof. unfold check_contract, CheckInt64. check_contract_tac. Qed.
Lemma CheckNumber_contract : check_contract LTNumber asNumber CheckNumber.
Proof. unfold check_contract, CheckNumber. check_contract_tac. Qed.
Lemma CheckString_contract : check_contract LTString asString CheckString.
Proof. unfold check_contract, CheckString. check_contract_tac. Qed.
Lemma CheckBool_contract : check_contract LTBool asBool CheckBool.
Proof. unfold check_contract, CheckBool. check_contract_tac. Qed.
Lemma CheckTable_contract : check_contract LTTable asTable CheckTable.
Proof. unfold check_contract, CheckTable. check_contract_tac. Qed.
Lemma CheckFunction_contract : check_contract LTFunction asFunction CheckFunction.
Proof. unfold check_contract, CheckFunction. check_contract_tac. Qed.
Lemma CheckUserData_contract : check_contract LTUserData asUserData CheckUserData.
Proof. unfold check_contract, CheckUserData. check_contract_tac. Qed.
Lemma CheckThread_contract : check_contract LTThread asThread CheckThread.
Proof. unfold check_contract, CheckThread. check_contract_tac. Qed.

(** X1. Each of the nine mandatory accessors returns the payload of the
    argument exactly when the argument has the accessor's kind, leaving
    the state as it was, and raises a type mismatch naming the expected
    and the actual kind for every other value; an absent argument counts
    as nil.  No accessor ever returns for a value of another kind. *)
Theorem Check_returns_only_its_kind :
  check_contract LTNumber asInt CheckInt
  /\ check_contract LTNumber asInt64 CheckInt64
  /\ check_contract LTNumber asNumber CheckNumber
  /\ check_contract LTString asString CheckString
  /\ check_contract LTBool asBool CheckBool
  /\ check_contract LTTable asTable CheckTable
  /\ check_contract LTFunction asFunction CheckFunction
  /\ check_contract LTUserData asUserData CheckUserData
  /\ check_contract LTThread asThread CheckThread.
Proof.
  repeat apply conj;
    [ apply CheckInt_contract | apply CheckInt64_contract
    | apply CheckNumber_contract | apply CheckString_contract
    | apply CheckBool_contract | apply CheckTable_contract
    | apply CheckFunction_contract | apply CheckUserData_contract
    | apply CheckThread_contract ].
Qed.

(** ** CheckType and CheckTypes *)

Lemma CheckTypes_match_elem (vt : LValueType) (typs : list LValueType) :
  CheckTypes_match vt typs = true <-> vt ∈ typs.
Proof.
  induction typs as [|typ rest IH]; simpl.
  - split; [done|]. intros Hin. by apply not_elem_of_nil in Hin.
  - destruct (decide (vt = typ)) as [->|Hne].
    + split; [intros _; left|done].
    + rewrite IH, elem_of_cons. intuition congruence.
Qed.

Lemma CheckTypes_names_fmap (typs : list LValueType) (buf : list string) :
  CheckTypes_names typs buf = buf ++ (LValueType_String <$> typs).
Proof.
  revert buf. induction typs as [|typ rest IH]; intros buf; simpl.
  - by rewrite app_nil_r.
  - by rewrite IH, <- app_assoc.
Qed.

(** The message of [CheckType] is no message of [TypeError]: it stops
    after ["expected"]. *)
Lemma expected_not_TypeMismatch (n : Z) (ls : LState) (K K' actual : LValueType) :
  bad_argument n ls (LValueType_String K +:+ " expected")
  <> TypeMismatch n ls K' actual.
Proof.
  unfold TypeMismatch, bad_argument, newApiError. intros [= Hmsg].
  do 5 apply String.app_inj in Hmsg.
  destruct K, K'; cbv [LValueType_String String.append] in Hmsg;
    discriminate Hmsg.
Qed.

(** X3. [CheckType n typ] returns, with the state as it was, exactly
    when the argument has kind [typ]; otherwise it raises the argument
    error with detail ["<typ> expected"].  Unlike the typed accessors it
    does not name the kind it found: its error is never one of
    [TypeError]'s. *)
Theorem CheckType_outcomes (n : Z) (typ : LValueType) (ls : LState) :
  (LValue_Type (Get n ls) = typ -> CheckType n typ ls = Ret tt ls)
  /\ (LValue_Type (Get n ls) <> typ ->
      CheckType n typ ls
      = Raise (bad_argument n ls (LValueType_String typ +:+ " expected")) ls)
  /\ (forall K actual,
        bad_argument n ls (LValueType_String typ +:+ " expected")
        <> TypeMismatch n ls K actual).
Proof.
  unfold CheckType. repeat apply conj.
  - intros Hty. by rewrite decide_False by (by intros []).
  - intros Hty. rewrite decide_True by done. apply ArgError_raises.
  - intros K actual. apply expected_not_TypeMismatch.
Qed.

(** X4. [CheckTypes n typs] returns, with the state as it was, exactly
    when the kind of the argument is one of [typs]; otherwise it raises
    the argument error whose detail lists the names of all of [typs], in
    order, joined by [" or "] and followed by [" expected"].  With no kind
    to accept it always raises, and with one kind it is [CheckType]. *)
Theorem CheckTypes_outcomes (n : Z) (typs : list LValueType) (ls : LState) :
  (LValue_Type (Get n ls) ∈ typs -> CheckTypes n typs ls = Ret tt ls)
  /\ (LValue_Type (Get n ls) ∉ typs ->
      CheckTypes n typs ls
      = Raise (bad_argument n ls
                 (strings_Join (LValueType_String <$> typs) " or "
                    +:+ " expected")) ls)
  /\ CheckTypes n [] ls = Raise (bad_argument n ls " expected") ls
  /\ (forall typ, CheckTypes n [typ] ls = CheckType n typ ls).
Proof.
  assert (Hin : LValue_Type (Get n ls) ∈ typs -> CheckTypes n typs ls = Ret tt ls).
  { intros Hty. unfold CheckTypes.
    apply CheckTypes_match_elem in Hty. by rewrite Hty. }
  assert (Hout : forall typs', LValue_Type (Get n ls) ∉ typs' ->
            CheckTypes n typs' ls
            = Raise (bad_argument n ls
                       (strings_Join (LValueType_String <$> typs') " or "
                          +:+ " expected")) ls).
  { intros typs' Hty. unfold CheckTypes.
    destruct (CheckTypes_match (LValue_Type (Get n ls)) typs') eqn:Hm.
    - by apply CheckTypes_match_elem in Hm.
    - rewrite CheckTypes_names_fmap. apply ArgError_raises. }
  repeat apply conj.
  - exact Hin.
  - apply Hout.
  - apply (Hout []). apply not_elem_of_nil.
  - intros typ. unfold CheckType.
    destruct (decide (LValue_Type (Get n ls) <> typ)) as [Hne|Heq].
    + rewrite Hout by (by rewrite list_elem_of_singleton).
      symmetry. apply ArgError_raises.
    + unfold CheckTypes. cbn [CheckTypes_match].
      destruct (decide (LValue_Type (Get n ls) = typ)); [done|].
      by destruct Heq.
Qed.

(** ** Where *)

Lemma slice_index_None {A} (l : list A) (i : Z) :
  slice_index l i = None <-> (i < 0)%Z \/ (Z.of_nat (length l) <= i)%Z.
Proof.
  unfold slice_index. destruct (Z.ltb_spec i 0) as [Hneg|Hpos].
  - split; [by left|done].
  - rewrite lookup_ge_None. lia.
Qed.

(** X5. [Where] never changes the state, and it fails exactly in one
    situation: the frame at that level runs a compiled function and the
    index [Pc - 1] lies outside the recorded source positions (below 0,
    as for a frame that has not started, or past the end); the failure is
    Go's index-out-of-range panic.  For a native frame and for a level
    without frame it always returns. *)
Theorem Where_fails_only_out_of_range (level : Z) (ls : LState) :
  ((exists e ls', Where level ls = Raise e ls')
   <-> exists dbg p,
         GetStack level ls = Some dbg
         /\ Proto (Fn (frame dbg)) = Some p
         /\ ((Pc (frame dbg) - 1 < 0)%Z
             \/ (Z.of_nat (length (DbgSourcePositions p)) <= Pc (frame dbg) - 1)%Z))
  /\ (forall e ls', Where level ls = Raise e ls' ->
        ErrType e = ApiErrorPanic /\ ls' = ls)
  /\ (forall str ls', Where level ls = Ret str ls' -> ls' = ls).
Proof.
  unfold Where.
  destruct (GetStack level ls) as [dbg|].
  2:{ split; [split|split].
      - by intros (e & ls' & ?).
      - by intros (dbg & p & ? & _).
      - done.
      - by intros str ls' [= _ <-]. }
  cbn zeta. destruct (Proto (Fn (frame dbg))) as [p|] eqn:Hproto.
  2:{ split; [split|split].
      - by intros (e & ls' & ?).
      - intros (dbg' & p & [= <-] & ? & _). congruence.
      - done.
      - by intros str ls' [= _ <-]. }
  destruct (slice_index (DbgSourcePositions p) (Pc (frame dbg) - 1)) as [pos|] eqn:Hpos.
  - split; [split|split].
    + by intros (e & ls' & ?).
    + intros (dbg' & p' & [= <-] & Hp' & Hout).
      rewrite Hproto in Hp'. injection Hp' as <-.
      apply slice_index_None in Hout. congruence.
    + done.
    + by intros str ls' [= _ <-].
  - split; [split|split].
    + intros _. exists dbg, p. split; [done|]. split; [done|].
      by apply slice_index_None.
    + intros _. by eexists _, _.
    + by intros e ls' [= <- <-].
    + done.
Qed.

(** ** FindTable on arbitrary paths *)

Lemma strings_Split_nonempty (s : string) (sep : Ascii.ascii) :
  strings_Split s sep <> [].
Proof.
  destruct s as [|c rest]; simpl; [done|].
  destruct (Ascii.eqb c sep); [done|]. by destruct (strings_Split rest sep).
Qed.

Lemma FindTable_loop_bounds (names : list string) (size : Z) (curobj : LValue)
    (ls : LState) (v : LValue) (ls' : LState) :
  FindTable_loop names size curobj ls = Ret v ls' ->
  length (tables ls') <= length (tables ls) + length names
  /\ (names <> [] \/ LValue_Type curobj = LTTable ->
      v = LNil \/ exists q, v = VTable q).
Proof.
  revert curobj ls. induction names as [|name rest IH]; intros curobj ls Hrun.
  - cbn in Hrun. injection Hrun as <- <-. split; [simpl; lia|].
    intros [?|Hty]; [done|]. right. destruct curobj; try discriminate Hty. eauto.
  - destruct (decide (LValue_Type curobj = LTTable)) as [Hty|Hty].
    2:{ rewrite FindTable_loop_not_table in Hrun by done.
        injection Hrun as <- <-. split; [simpl; lia|by left]. }
    destruct curobj as [| | | |c| | |]; try discriminate Hty.
    destruct (RawGet (VTable c) (VString name) ls) as [| | | |d| | |] eqn:Hslot;
      try (rewrite FindTable_loop_blocked in Hrun by (by rewrite Hslot);
           injection Hrun as <- <-; split; [simpl; lia|by left]).
    + rewrite FindTable_loop_create in Hrun by done.
      destruct (IH _ _ Hrun) as [Hlen Hkind].
      rewrite length_link_new in Hlen. split; [simpl; lia|].
      intros _. apply Hkind. by right.
    + rewrite (FindTable_loop_follow _ _ _ _ d) in Hrun by done.
      destruct (IH _ _ Hrun) as [Hlen Hkind]. split; [simpl; lia|].
      intros _. apply Hkind. by right.
Qed.

(** X6. [FindTable] never raises, whatever the root and the path.  Its
    result is nil or a table.  It touches nothing but the table heap:
    registers, frames, function objects and the two roots stay as they
    are; no table is freed, and at most one table per path segment is
    allocated. *)
Theorem FindTable_only_grows_heap (obj : LValue) (n : string) (size : Z)
    (ls : LState) :
  exists v ls',
    FindTable obj n size ls = Ret v ls'
    /\ (v = LNil \/ exists q, v = VTable q)
    /\ reg ls' = reg ls /\ stack ls' = stack ls /\ functions ls' = functions ls
    /\ G_Registry ls' = G_Registry ls /\ G_Global ls' = G_Global ls
    /\ length (tables ls) <= length (tables ls')
    /\ length (tables ls') <= length (tables ls) + length (strings_Split n dot).
Proof.
  unfold FindTable.
  destruct (FindTable_loop_frame (strings_Split n dot) size obj ls)
    as (v & ls' & Hrun & Hreg & Hstack & Hfun & HR & HG & Hlen).
  destruct (FindTable_loop_bounds _ _ _ _ _ _ Hrun) as [Hmax Hkind].
  exists v, ls'. repeat apply conj; try done.
  apply Hkind. left. apply strings_Split_nonempty.
Qed.

(** After a successful walk the slots lead to the result, and walking
    again finds it. *)
Lemma FindTable_loop_found_again (names : list string) (size size' : Z)
    (c : nat) (ls : LState) (q : nat) (ls' : LState) :
  no_dangling ls ->
  valid_table c ls ->
  FindTable_loop names size (VTable c) ls = Ret (VTable q) ls' ->
  walk names (VTable c) ls' = VTable q
  /\ FindTable_loop names size' (VTable c) ls' = Ret (VTable q) ls'.
Proof.
  revert c ls. induction names as [|name rest IH]; intros c ls Hvalid Hc Hrun.
  - cbn in Hrun. by injection Hrun as <- <-.
  - destruct (RawGet (VTable c) (VString name) ls) as [| | | |d| | |] eqn:Hslot;
      try (rewrite FindTable_loop_blocked in Hrun by (by rewrite Hslot);
           discriminate Hrun).
    + rewrite FindTable_loop_create in Hrun by done.
      assert (Hlinked : RawGet (VTable c) (VString name) (link_new c name ls)
                        = VTable (length (tables ls))).
      { rewrite RawGet_link_new, decide_True; [done|].
        unfold valid_table in Hc. repeat split. lia. }
      assert (Hkept : RawGet (VTable c) (VString name) ls'
                      = VTable (length (tables ls))).
      { rewrite (FindTable_loop_keeps_slots _ _ _ _ _ _ Hrun) by (by rewrite Hlinked).
        exact Hlinked. }
      destruct (IH (length (tables ls)) (link_new c name ls)) as [Hwalk Hagain];
        [exact (link_new_slots_valid c name ls Hvalid)
        |unfold valid_table; rewrite length_link_new; lia
        |done|].
      split.
      * cbn [walk]. by rewrite Hkept.
      * by rewrite (FindTable_loop_follow _ _ _ _ (length (tables ls))).
    + rewrite (FindTable_loop_follow _ _ _ _ d) in Hrun by done.
      assert (Hkept : RawGet (VTable c) (VString name) ls' = VTable d).
      { rewrite (FindTable_loop_keeps_slots _ _ _ _ _ _ Hrun) by (by rewrite Hslot).
        exact Hslot. }
      destruct (IH d ls) as [Hwalk Hagain]; [done|by apply (Hvalid c name)|done|].
      split.
      * cbn [walk]. by rewrite Hkept.
      * by rewrite (FindTable_loop_follow _ _ _ _ d).
Qed.

(** X7. In a heap without dangling table references, when [FindTable]
    on an allocated root returns a table, for any path: that table is
    allocated; following the path slot by slot from the root now leads
    to it; and calling [FindTable] again with the same root and path, with
    any size hint, returns the identical table and leaves the state
    exactly as it is. *)
Theorem FindTable_found_again (c : nat) (n : string) (size size' : Z)
    (ls : LState) (q : nat) (ls' : LState) :
  no_dangling ls ->
  valid_table c ls ->
  FindTable (VTable c) n size ls = Ret (VTable q) ls' ->
  valid_table q ls'
  /\ walk (strings_Split n dot) (VTable c) ls' = VTable q
  /\ FindTable (VTable c) n size' ls' = Ret (VTable q) ls'.
Proof.
  intros Hvalid Hc Hrun. unfold FindTable in *. split.
  - by apply (FindTable_loop_valid _ _ _ _ _ _ Hvalid Hc Hrun).
  - by apply (FindTable_loop_found_again _ size size' c ls).
Qed.

(** X8. In a heap without dangling table references and from an
    allocated root, [FindTable] returns nil exactly when the read-only
    walk along the path runs into a value that is no table; in every
    other case it returns a table. *)
Theorem FindTable_nil_iff_blocked (c : nat) (n : string) (size : Z) (ls : LState) :
  no_dangling ls ->
  valid_table c ls ->
  ((exists ls', FindTable (VTable c) n size ls = Ret LNil ls')
   <-> hits_non_table (strings_Split n dot) (VTable c) ls = true)
  /\ (hits_non_table (strings_Split n dot) (VTable c) ls = false ->
      exists q ls', FindTable (VTable c) n size ls = Ret (VTable q) ls').
Proof.
  intros Hvalid Hc. unfold FindTable. split.
  - split.
    + intros (ls' & Hrun).
      destruct (hits_non_table (strings_Split n dot) (VTable c) ls) eqn:Hhit; [done|].
      destruct (FindTable_loop_table _ size _ _ Hvalid Hc Hhit) as (q & ls'' & Hq).
      congruence.
    + intros Hhit. exists ls. by apply FindTable_loop_hits_non_table.
  - intros Hfree. by apply FindTable_loop_table.
Qed.

(** ** RegisterModule, before and after the first registration *)

(** X9. When the loaded-modules table already records a table under
    [name], [RegisterModule] returns that table and leaves the state
    exactly as it is, whatever function set it is given: nothing is
    merged, no function object is created, the globals are not
    consulted. *)
Theorem RegisterModule_already_loaded (name : string)
    (funcs : list (string * LGFunction)) (ls : LState) (t m : nat) :
  RawGet (VTable (G_Registry ls)) (VString "_LOADED") ls = VTable t ->
  RawGet (VTable t) (VString name) ls = VTable m ->
  RegisterModule name funcs ls = Ret (VTable m) ls.
Proof.
  intros Hloaded Hmod. rewrite RegisterModule_steps.
  unfold FindTable at 1. rewrite split_LOADED.
  rewrite (FindTable_loop_follow _ _ _ _ t) by done. cbn [FindTable_loop ret].
  unfold GetField. rewrite Hmod. cbn [LValue_Type].
  by destruct (decide (LTTable <> LTTable)).
Qed.

(** The first registration, step by step: the loaded-modules table [t]
    (found in [lsA = ls] or created in [lsA]), the module table [q] found
    or created under the globals ([lsB]), the functions installed
    ([lsC]), and the module recorded in [t]. *)
Lemma RegisterModule_first_call (name : string)
    (funcs : list (string * LGFunction)) (ls : LState) :
  heap_wf ls ->
  (RawGet (VTable (G_Registry ls)) (VString "_LOADED") ls = LNil
   \/ exists t, RawGet (VTable (G_Registry ls)) (VString "_LOADED") ls = VTable t
                /\ t <> G_Registry ls
                /\ LValue_Type (RawGet (VTable t) (VString name) ls) <> LTTable) ->
  hits_non_table (strings_Split name dot) (VTable (G_Global ls)) ls = false ->
  exists t lsA q lsB lsC,
    ((lsA = ls
      /\ RawGet (VTable (G_Registry ls)) (VString "_LOADED") ls = VTable t)
     \/ (lsA = link_new (G_Registry ls) "_LOADED" ls
         /\ t = length (tables ls)
         /\ RawGet (VTable (G_Registry ls)) (VString "_LOADED") ls = LNil))
    /\ t <> G_Registry ls
    /\ valid_table t lsA
    /\ FindTable_loop (strings_Split name dot) (Z.of_nat (length funcs))
         (VTable (G_Global ls)) lsA = Ret (VTable q) lsB
    /\ valid_table q lsB
    /\ RegisterModule_loop q funcs lsB = Ret tt lsC
    /\ RegisterModule name funcs ls = Ret (VTable q) (set_slot t name (VTable q) lsC).
Proof.
  intros Hwf Hloaded Hfree.
  assert (exists t lsA,
            FindTable (VTable (G_Registry ls)) "_LOADED" 1 ls = Ret (VTable t) lsA
            /\ t <> G_Registry ls
            /\ LValue_Type (RawGet (VTable t) (VString name) lsA) <> LTTable
            /\ hits_non_table (strings_Split name dot) (VTable (G_Global ls)) lsA
               = false)
    as (t & lsA & HfindA & HtR & Hmod & HfreeA).
  { destruct Hwf as (HR & _).
    destruct Hloaded as [Hnone|(t & Hsome & HtR & Hmod)].
    - exists (length (tables ls)), (link_new (G_Registry ls) "_LOADED" ls).
      unfold FindTable. rewrite split_LOADED.
      rewrite FindTable_loop_create by done.
      repeat apply conj.
      + reflexivity.
      + unfold valid_table in HR. lia.
      + by rewrite link_new_fresh_empty.
      + by apply hits_non_table_link_new.
    - exists t, ls. unfold FindTable. rewrite split_LOADED.
      by rewrite (FindTable_loop_follow _ _ _ _ t). }
  destruct (FindTable_LOADED ls (VTable t) lsA Hwf HfindA)
    as [[Hnil _]|(t' & Ht' & HslotA & HwfA & HtA & HRA & HGA & Hcase)];
    [discriminate Hnil|].
  injection Ht' as <-.
  destruct HwfA as (_ & HGvalid & Hslots). rewrite HGA in HGvalid.
  destruct (FindTable_loop_table (strings_Split name dot) (Z.of_nat (length funcs))
              (G_Global ls) lsA Hslots HGvalid HfreeA) as (q & lsB & HfindB).
  destruct (RegisterModule_loop_spec q funcs lsB) as (lsC & HrunC & _).
  exists t, lsA, q, lsB, lsC. repeat apply conj; try done.
  - by apply (FindTable_loop_valid _ _ _ _ _ _ Hslots HGvalid HfindB).
  - rewrite RegisterModule_steps, HfindA. unfold GetField at 1.
    destruct (decide (LValue_Type (RawGet (VTable t) (VString name) lsA) <> LTTable))
      as [_|Hc]; [|by destruct Hc].
    rewrite HGA. unfold FindTable. by rewrite HfindB, HrunC.
Qed.

(** X10. The effects of a first registration (state without dangling
    table references, [name] not loaded yet, globals path along [name]
    free of non-tables).  [RegisterModule] returns a table [q] and records
    it under [name] in the loaded-modules table [t], which is the one the
    registry listed or a table allocated first.  Exactly one function
    object per entry of the function set is allocated, in the order of
    the enumeration.  Registers, frames and roots stay as they are.  And
    every slot that was set before keeps its value, except the slots of
    [q] named by the function set and the slot [name] of [t]: no other
    global and no other loaded module is touched. *)
Theorem RegisterModule_first_registration (name : string)
    (funcs : list (string * LGFunction)) (ls : LState) :
  heap_wf ls ->
  (RawGet (VTable (G_Registry ls)) (VString "_LOADED") ls = LNil
   \/ exists t, RawGet (VTable (G_Registry ls)) (VString "_LOADED") ls = VTable t
                /\ t <> G_Registry ls
                /\ LValue_Type (RawGet (VTable t) (VString name) ls) <> LTTable) ->
  hits_non_table (strings_Split name dot) (VTable (G_Global ls)) ls = false ->
  exists q t ls1,
    RegisterModule name funcs ls = Ret (VTable q) ls1
    /\ RawGet (VTable t) (VString name) ls1 = VTable q
    /\ (RawGet (VTable (G_Registry ls)) (VString "_LOADED") ls = VTable t
        \/ (RawGet (VTable (G_Registry ls)) (VString "_LOADED") ls = LNil
            /\ t = length (tables ls)))
    /\ functions ls1 = functions ls ++ ((fun e => native_function e.2) <$> funcs)
    /\ reg ls1 = reg ls /\ stack ls1 = stack ls
    /\ G_Registry ls1 = G_Registry ls /\ G_Global ls1 = G_Global ls
    /\ (forall p k,
          RawGet (VTable p) (VString k) ls <> LNil ->
          p <> q \/ k ∉ funcs.*1 ->
          p <> t \/ k <> name ->
          RawGet (VTable p) (VString k) ls1 = RawGet (VTable p) (VString k) ls).
Proof.
  intros Hwf Hloaded Hfree.
  destruct (RegisterModule_first_call name funcs ls Hwf Hloaded Hfree)
    as (t & lsA & q & lsB & lsC & Hcase & HtR & HtA & HfindB & HqB & HrunC & Hrun).
  destruct (FindTable_loop_frame (strings_Split name dot) (Z.of_nat (length funcs))
              (VTable (G_Global ls)) lsA)
    as (v' & lsB' & HfindB' & HregB & HstackB & HfunB & HRB & HGB & HlenB).
  rewrite HfindB in HfindB'. injection HfindB' as <- <-.
  destruct (RegisterModule_loop_spec q funcs lsB)
    as (lsC' & HrunC' & HfunC & HlenC & HregC & HstackC & HRC & HGC & HotherC & _).
  rewrite HrunC in HrunC'. injection HrunC' as <-.
  assert (HframeA : reg lsA = reg ls /\ stack lsA = stack ls
                    /\ functions lsA = functions ls
                    /\ G_Registry lsA = G_Registry ls /\ G_Global lsA = G_Global ls).
  { destruct Hcase as [[-> _]|(-> & _ & _)]; [done|apply link_new_frame]. }
  destruct HframeA as (HregA & HstackA & HfunA & HRA & HGA).
  assert (HkeptA : forall p k, RawGet (VTable p) (VString k) ls <> LNil ->
            RawGet (VTable p) (VString k) lsA = RawGet (VTable p) (VString k) ls).
  { destruct Hcase as [[-> _]|(-> & _ & Hnone)]; [done|].
    by apply link_new_keeps_slots. }
  exists q, t, (set_slot t name (VTable q) lsC). repeat apply conj.
  - exact Hrun.
  - unfold set_slot. rewrite RawGet_set_slot, decide_True; [done|].
    unfold valid_table in HtA. repeat split. lia.
  - destruct Hcase as [[_ ?]|(_ & ? & ?)]; [by left|by right].
  - unfold set_slot. cbn [functions set_tables]. congruence.
  - unfold set_slot. cbn [reg set_tables]. congruence.
  - unfold set_slot. cbn [stack set_tables]. congruence.
  - unfold set_slot. cbn [G_Registry set_tables]. congruence.
  - unfold set_slot. cbn [G_Global set_tables]. congruence.
  - intros p k Hset Hq Ht. unfold set_slot.
    rewrite RawGet_set_slot, decide_False by (intros (-> & -> & _); by destruct Ht).
    rewrite HotherC by done.
    rewrite (FindTable_loop_keeps_slots _ _ _ _ _ _ HfindB)
      by (by rewrite HkeptA).
    by apply HkeptA.
Qed.

(** The state a name conflict leaves behind: the state as it was, with the
    loaded-modules table created if the registry listed none. *)
Lemma RegisterModule_conflict_state (name : string)
    (funcs : list (string * LGFunction)) (ls : LState) :
  valid_table (G_Registry ls) ls ->
  (RawGet (VTable (G_Registry ls)) (VString "_LOADED") ls = LNil
   \/ exists t, RawGet (VTable (G_Registry ls)) (VString "_LOADED") ls = VTable t
                /\ LValue_Type (RawGet (VTable t) (VString name) ls) <> LTTable) ->
  hits_non_table (strings_Split name dot) (VTable (G_Global ls)) ls = true ->
  RegisterModule name funcs ls
  = Raise (NameConflict name)
      match RawGet (VTable (G_Registry ls)) (VString "_LOADED") ls with
      | LNil => link_new (G_Registry ls) "_LOADED" ls
      | _ => ls
      end.
Proof.
  intros Hreg Hloaded Hhit.
  rewrite RegisterModule_steps. unfold FindTable at 1. rewrite split_LOADED.
  destruct Hloaded as [Hnone|(t & Hsome & Hmod)].
  - rewrite Hnone, FindTable_loop_create by done. cbn [FindTable_loop ret].
    unfold GetField. rewrite link_new_fresh_empty by done. cbn [LValue_Type].
    destruct (decide (LTNil <> LTTable)) as [_|Hc]; [|by destruct Hc].
    destruct (link_new_frame (G_Registry ls) "_LOADED" ls) as (_ & _ & _ & _ & ->).
    unfold FindTable. rewrite FindTable_loop_hits_non_table; [done|].
    apply (hits_non_table_kept _ _ ls); [|done].
    by apply link_new_keeps_slots.
  - rewrite Hsome, (FindTable_loop_follow _ _ _ _ t) by done.
    cbn [FindTable_loop ret].
    unfold GetField. destruct (decide _) as [_|Hc]; [|by destruct Hc].
    unfold FindTable. by rewrite FindTable_loop_hits_non_table.
Qed.

(** X11. A name conflict installs nothing.  Under the conditions of the
    conflict (no table recorded under [name], globals path along [name]
    running into a non-table) the state that [RegisterModule] leaves when
    it raises has the function objects, registers, frames and roots it
    started with and every slot that was set still holds its value; at
    most the loaded-modules table has been allocated.  Trying again, with
    any function set, raises the same conflict and changes nothing
    more. *)
Theorem RegisterModule_conflict_installs_nothing (name : string)
    (funcs funcs' : list (string * LGFunction)) (ls : LState) :
  valid_table (G_Registry ls) ls ->
  (RawGet (VTable (G_Registry ls)) (VString "_LOADED") ls = LNil
   \/ exists t, RawGet (VTable (G_Registry ls)) (VString "_LOADED") ls = VTable t
                /\ LValue_Type (RawGet (VTable t) (VString name) ls) <> LTTable) ->
  hits_non_table (strings_Split name dot) (VTable (G_Global ls)) ls = true ->
  exists ls',
    RegisterModule name funcs ls = Raise (NameConflict name) ls'
    /\ functions ls' = functions ls
    /\ reg ls' = reg ls /\ stack ls' = stack ls
    /\ G_Registry ls' = G_Registry ls /\ G_Global ls' = G_Global ls
    /\ length (tables ls') <= S (length (tables ls))
    /\ (forall p k, RawGet (VTable p) (VString k) ls <> LNil ->
          RawGet (VTable p) (VString k) ls' = RawGet (VTable p) (VString k) ls)
    /\ RegisterModule name funcs' ls' = Raise (NameConflict name) ls'.
Proof.
  intros Hreg Hloaded Hhit.
  rewrite (RegisterModule_conflict_state name funcs ls Hreg Hloaded Hhit).
  destruct Hloaded as [Hnone|(t & Hsome & Hmod)].
  - rewrite Hnone. pose (ls' := link_new (G_Registry ls) "_LOADED" ls).
    assert (Hframe : reg ls' = reg ls /\ stack ls' = stack ls
                     /\ functions ls' = functions ls
                     /\ G_Registry ls' = G_Registry ls /\ G_Global ls' = G_Global ls)
      by apply link_new_frame.
    destruct Hframe as (Hr & Hs & Hf & HR & HG).
    assert (Hlen : length (tables ls') = S (length (tables ls)))
      by apply length_link_new.
    assert (Hkept : forall p k, RawGet (VTable p) (VString k) ls <> LNil ->
              RawGet (VTable p) (VString k) ls' = RawGet (VTable p) (VString k) ls)
      by (by apply link_new_keeps_slots).
    assert (Hlisted : RawGet (VTable (G_Registry ls')) (VString "_LOADED") ls'
                      = VTable (length (tables ls))).
    { rewrite HR. unfold ls'. rewrite RawGet_link_new, decide_True; [done|].
      unfold valid_table in Hreg. repeat split. lia. }
    assert (Hempty : LValue_Type (RawGet (VTable (length (tables ls))) (VString name) ls')
                     <> LTTable)
      by (unfold ls'; by rewrite link_new_fresh_empty).
    change (link_new (G_Registry ls) "_LOADED" ls) with ls'.
    exists ls'. repeat apply conj; try done.
    + lia.
    + rewrite (RegisterModule_conflict_state name funcs' ls').
      * by rewrite Hlisted.
      * unfold valid_table in *. rewrite HR, Hlen. lia.
      * right. by exists (length (tables ls)).
      * rewrite HG. by apply (hits_non_table_kept _ _ ls).
  - rewrite Hsome. exists ls. repeat apply conj; try done; [lia|].
    rewrite (RegisterModule_conflict_state name funcs' ls Hreg);
      [by rewrite Hsome|right; by exists t|done].
Qed.

(** ** RegisterModuleToTable *)

(** X12. [RegisterModuleToTable] on a value that is no table raises the
    type error of argument position 1: the message reports the kind found
    at position 1 of the current call, whatever [tbl] is.  On a table it
    returns that table; one function object per entry is allocated;
    nothing but the slots of this table named by the function set
    changes, so neither the globals nor the loaded-modules table record
    anything; and on an allocated table, for a function set without
    repeated names, every entry is present as a function object wrapping
    its callback. *)
Theorem RegisterModuleToTable_outcomes (tbl : LValue)
    (funcs : list (string * LGFunction)) (ls : LState) :
  (LValue_Type tbl <> LTTable ->
     RegisterModuleToTable tbl funcs ls
     = Raise (TypeMismatch 1 ls LTTable (LValue_Type (Get 1 ls))) ls)
  /\ (forall tb, tbl = VTable tb ->
        exists ls',
          RegisterModuleToTable tbl funcs ls = Ret (VTable tb) ls'
          /\ functions ls' = functions ls ++ ((fun e => native_function e.2) <$> funcs)
          /\ length (tables ls') = length (tables ls)
          /\ reg ls' = reg ls /\ stack ls' = stack ls
          /\ G_Registry ls' = G_Registry ls /\ G_Global ls' = G_Global ls
          /\ (forall p k, p <> tb \/ k ∉ funcs.*1 ->
                RawGet (VTable p) (VString k) ls' = RawGet (VTable p) (VString k) ls)
          /\ (valid_table tb ls -> NoDup funcs.*1 ->
              forall fname fn, (fname, fn) ∈ funcs ->
                exists f, RawGet (VTable tb) (VString fname) ls' = VFunction f
                          /\ functions ls' !! f = Some (native_function fn))).
Proof.
  split.
  - intros Hty. unfold RegisterModuleToTable.
    destruct tbl; try (by rewrite TypeError_raises). by destruct Hty.
  - intros tb ->. unfold RegisterModuleToTable, bind.
    destruct (RegisterModule_loop_spec tb funcs ls)
      as (ls' & Hrun & Hfun & Hlen & Hreg & Hstack & HR & HG & Hother & Hentries).
    rewrite Hrun. exists ls'. repeat apply conj; try done.
    intros Htb Hnodup fname fn Hin.
    apply list_elem_of_lookup in Hin as [i Hi].
    exists (length (functions ls) + i). split.
    + by apply (Hentries Htb Hnodup i fname fn).
    + rewrite Hfun, lookup_app_r, Nat.add_comm, Nat.add_sub by lia.
      by rewrite list_lookup_fmap, Hi.
Qed.

(** ** The registry of type metatables *)

Lemma NewTypeMetatable_steps (typ : string) (ls : LState) :
  NewTypeMetatable typ ls
  = match RawGet (VTable (G_Registry ls)) (VString typ) ls with
    | VTable tb => Ret (Some tb) ls
    | _ =>
        Ret (Some (length (tables ls)))
          (set_slot (G_Registry ls) typ (VTable (length (tables ls)))
             (set_tables (fun t => t ++ [∅]) ls))
    end.
Proof.
  unfold NewTypeMetatable, bind, gets.
  change (Get RegistryIndex ls) with (VTable (G_Registry ls)).
  unfold GetField.
  by destruct (RawGet (VTable (G_Registry ls)) (VString typ) ls).
Qed.

Lemma GetTypeMetatable_steps (typ : string) (ls : LState) :
  GetTypeMetatable typ ls
  = Ret (RawGet (VTable (G_Registry ls)) (VString typ) ls) ls.
Proof. reflexivity. Qed.

Lemma NewTypeMetatable_fresh (typ : string) (ls : LState) :
  LValue_Type (RawGet (VTable (G_Registry ls)) (VString typ) ls) <> LTTable ->
  NewTypeMetatable typ ls
  = Ret (Some (length (tables ls)))
      (set_slot (G_Registry ls) typ (VTable (length (tables ls)))
         (set_tables (fun t => t ++ [∅]) ls)).
Proof.
  intros Hty. rewrite NewTypeMetatable_steps.
  destruct (RawGet (VTable (G_Registry ls)) (VString typ) ls);
    first [done | by destruct Hty].
Qed.

(** What a slot reads after [NewTypeMetatable] had to create the table. *)
Lemma RawGet_new_metatable (typ : string) (ls : LState) (p : nat) (k : string) :
  valid_table (G_Registry ls) ls ->
  RawGet (VTable p) (VString k)
    (set_slot (G_Registry ls) typ (VTable (length (tables ls)))
       (set_tables (fun t => t ++ [∅]) ls))
  = if decide (p = G_Registry ls /\ k = typ) then VTable (length (tables ls))
    else RawGet (VTable p) (VString k) ls.
Proof.
  intros HR. unfold valid_table in HR. unfold set_slot.
  rewrite RawGet_set_slot. cbn [tables set_tables]. rewrite length_app. cbn [length].
  assert (Hold : RawGet (VTable p) (VString k) (set_tables (fun t => t ++ [∅]) ls)
                 = RawGet (VTable p) (VString k) ls).
  { rewrite !RawGet_table. unfold tableAt. cbn [tables set_tables].
    destruct (decide (p < length (tables ls))) as [Hlt|Hge].
    - by rewrite lookup_app_l.
    - rewrite (lookup_ge_None_2 (tables ls) p) by lia.
      destruct (decide (p = length (tables ls))) as [->|?].
      + by rewrite lookup_app_r, Nat.sub_diag by lia.
      + by rewrite lookup_ge_None_2 by (rewrite length_app; simpl; lia). }
  rewrite Hold.
  destruct (decide (p = G_Registry ls /\ k = typ)) as [[-> ->]|Hne].
  - rewrite decide_True; [done|]. repeat split. lia.
  - rewrite decide_False; [done|]. tauto.
Qed.

(** X13. [NewTypeMetatable typ] always returns a table [t] (the registry
    root being allocated) and afterwards the registry root maps [typ] to
    [t]: [GetTypeMetatable typ] yields [t], and a second
    [NewTypeMetatable typ] returns the identical [t] and leaves the state
    exactly as it is.  If the registry root already mapped [typ] to a
    table, that table is returned and nothing changes.  Otherwise,
    whether the slot was unset or held a value that is no table (which is
    overwritten), [t] is a newly allocated, empty table.  No other slot of
    any table changes. *)
Theorem NewTypeMetatable_registers_once (typ : string) (ls : LState) :
  valid_table (G_Registry ls) ls ->
  exists t ls1,
    NewTypeMetatable typ ls = Ret (Some t) ls1
    /\ GetTypeMetatable typ ls1 = Ret (VTable t) ls1
    /\ NewTypeMetatable typ ls1 = Ret (Some t) ls1
    /\ (forall p k, p <> G_Registry ls \/ k <> typ ->
          RawGet (VTable p) (VString k) ls1 = RawGet (VTable p) (VString k) ls)
    /\ (RawGet (VTable (G_Registry ls)) (VString typ) ls = VTable t -> ls1 = ls)
    /\ (LValue_Type (RawGet (VTable (G_Registry ls)) (VString typ) ls) <> LTTable ->
        t = length (tables ls)
        /\ length (tables ls1) = S (length (tables ls))
        /\ forall k, RawGet (VTable t) (VString k) ls1 = LNil).
Proof.
  intros HR.
  destruct (decide (LValue_Type (RawGet (VTable (G_Registry ls)) (VString typ) ls)
                    = LTTable)) as [Hty|Hty].
  - destruct (RawGet (VTable (G_Registry ls)) (VString typ) ls)
      as [| | | |tb| | |] eqn:Hslot; try discriminate Hty.
    exists tb, ls. repeat apply conj; try done.
    + by rewrite NewTypeMetatable_steps, Hslot.
    + by rewrite GetTypeMetatable_steps, Hslot.
    + by rewrite NewTypeMetatable_steps, Hslot.
  - rewrite NewTypeMetatable_fresh by done.
    set (ls1 := set_slot (G_Registry ls) typ (VTable (length (tables ls)))
                  (set_tables (fun t => t ++ [∅]) ls)).
    assert (HR1 : G_Registry ls1 = G_Registry ls) by (by destruct ls).
    assert (Hget : forall p k, RawGet (VTable p) (VString k) ls1
              = if decide (p = G_Registry ls /\ k = typ)
                then VTable (length (tables ls))
                else RawGet (VTable p) (VString k) ls)
      by (intros p k; by apply RawGet_new_metatable).
    assert (Hnew : RawGet (VTable (G_Registry ls1)) (VString typ) ls1
                   = VTable (length (tables ls)))
      by (by rewrite HR1, Hget, decide_True).
    exists (length (tables ls)), ls1. repeat apply conj.
    + reflexivity.
    + by rewrite GetTypeMetatable_steps, Hnew.
    + by rewrite NewTypeMetatable_steps, Hnew.
    + intros p k Hpk. rewrite Hget, decide_False; [done|tauto].
    + intros Heq. rewrite Heq in Hty. by destruct Hty.
    + intros _. repeat apply conj.
      * reflexivity.
      * unfold ls1, set_slot. cbn [tables set_tables].
        rewrite length_alter, length_app. simpl. lia.
      * intros k. rewrite Hget, decide_False
          by (intros [Hp _]; unfold valid_table in HR; lia).
        by apply RawGet_unallocated.
Qed.

(** X14. Two type names get two metatables.  Starting from a registry
    root that maps neither of two different names to a table,
    [NewTypeMetatable] for the one and then for the other returns two
    different tables, and afterwards each name still yields its own
    table. *)
Theorem NewTypeMetatable_distinct_types (typ typ' : string) (ls : LState)
    (t t' : nat) (ls1 ls2 : LState) :
  valid_table (G_Registry ls) ls ->
  typ <> typ' ->
  LValue_Type (RawGet (VTable (G_Registry ls)) (VString typ) ls) <> LTTable ->
  LValue_Type (RawGet (VTable (G_Registry ls)) (VString typ') ls) <> LTTable ->
  NewTypeMetatable typ ls = Ret (Some t) ls1 ->
  NewTypeMetatable typ' ls1 = Ret (Some t') ls2 ->
  t <> t'
  /\ GetTypeMetatable typ ls2 = Ret (VTable t) ls2
  /\ GetTypeMetatable typ' ls2 = Ret (VTable t') ls2.
Proof.
  intros HR Hne Hty Hty' Hrun1 Hrun2.
  rewrite NewTypeMetatable_fresh in Hrun1 by done.
  injection Hrun1 as <- <-.
  set (ls1 := set_slot (G_Registry ls) typ (VTable (length (tables ls)))
                (set_tables (fun t => t ++ [∅]) ls)) in *.
  assert (HR1 : G_Registry ls1 = G_Registry ls) by (by destruct ls).
  assert (Hlen1 : length (tables ls1) = S (length (tables ls))).
  { unfold ls1, set_slot. cbn [tables set_tables].
    rewrite length_alter, length_app. simpl. lia. }
  assert (Hvalid1 : valid_table (G_Registry ls1) ls1)
    by (unfold valid_table in *; rewrite HR1, Hlen1; lia).
  assert (Hget1 : forall p k, RawGet (VTable p) (VString k) ls1
            = if decide (p = G_Registry ls /\ k = typ)
              then VTable (length (tables ls))
              else RawGet (VTable p) (VString k) ls)
    by (intros p k; by apply RawGet_new_metatable).
  assert (Hty1 : LValue_Type (RawGet (VTable (G_Registry ls1)) (VString typ') ls1)
                 <> LTTable).
  { rewrite HR1, Hget1, decide_False; [done|]. intros [_ ?]. congruence. }
  rewrite NewTypeMetatable_fresh in Hrun2 by done.
  injection Hrun2 as <- <-.
  split; [|split].
  - rewrite length_alter, length_app. simpl. lia.
  - rewrite GetTypeMetatable_steps. f_equal. cbn [G_Registry set_slot set_tables].
    fold (G_Registry ls1).
    rewrite (RawGet_new_metatable typ' ls1) by done.
    rewrite decide_False by (intros [_ ?]; congruence).
    by rewrite HR1, Hget1, decide_True.
  - rewrite GetTypeMetatable_steps. f_equal. cbn [G_Registry set_slot set_tables].
    fold (G_Registry ls1).
    rewrite (RawGet_new_metatable typ' ls1) by done.
    by rewrite decide_True.
Qed.

(** ** Loading files *)

(** X15. A file that cannot be opened: for a path that is not empty,
    [LoadFile] fails with the file error ["can not read <path>"] without
    calling the compiler, and [DoFile] returns that error with the state
    untouched, having run nothing. *)
Theorem DoFile_unreadable (path : string) (ls : LState) :
  path <> "" ->
  os_Open path = None ->
  LoadFile path ls = inr (FileError path)
  /\ DoFile path ls = Ret (Some (FileError path)) ls
  /\ ErrType (FileError path) = ApiErrorFile
  /\ Message (FileError path) = "can not read " +:+ path.
Proof.
  intros Hpath Hopen.
  assert (Hload : LoadFile path ls = inr (FileError path)).
  { unfold LoadFile. rewrite Hopen.
    destruct (decide (String.length path = 0)) as [Hlen|_]; [|done].
    by destruct path. }
  repeat apply conj; try done.
  unfold DoFile. by rewrite Hload.
Qed.

End coverage.

(** * The properties at work on the small interpreter *)

Section examples.
Local Existing Instance testHost.
Local Existing Instance testInterp.

Lemma testState_wf : heap_wf testState.
Proof.
  unfold heap_wf, valid_table. cbn. repeat split; [lia|lia|].
  intros [|[|p]] k q; cbn; rewrite ?lookup_empty; done.
Qed.


(** An absent fifth argument: the default comes back. *)
Lemma Opt_default_witness : OptInt 5 9 testState = Ret 9%Z testState.
Proof.
  apply (proj1 (proj1 Opt_default_only_when_absent_or_nil 5%Z 9%Z testState)).
  left. split; reflexivity.
Defined.

(** Three arguments, so a fourth is missing. *)
Lemma CheckAny_arity_witness :
  CheckAny 4 testState = Raise (ArgumentMissing 4 testState) testState.
Proof. apply (proj1 (CheckAny_arity 4 testState)). reflexivity. Defined.

(** The script frame of [scriptState] is at line 11 of main.lua. *)
Lemma Where_position_witness :
  Where 0 scriptState = Ret "main.lua:11:" scriptState.
Proof. exact (Where_position 0 scriptState ltac:(lia) 11%Z eq_refl). Defined.

(** C3 as stated fails: the current frame of [testState] runs a native
    function, which has no source information, and [Where 0] is ["[G]:"],
    not the empty string. *)
Lemma Where_native_frame_not_empty :
  (exists cf, stack testState !! 0 = Some cf /\ Proto (Fn cf) = None)
  /\ Where 0 testState = Ret "[G]:" testState
  /\ Where 0 testState <> Ret "" testState.
Proof.
  split; [eexists; split; reflexivity|].
  split; [reflexivity|]. intros Heq. discriminate Heq.
Qed.

(** The path x.y.z under the (empty) globals: tables 2, 3 and 4 are
    created, and the second call finds table 4 again. *)
Lemma FindTable_creates_path_once_witness :
  exists ls',
    FindTable (VTable 1) "x.y.z" 4 testState = Ret (VTable 4) ls'
    /\ length (tables ls') = 5
    /\ FindTable (VTable 1) "x.y.z" 4 ls' = Ret (VTable 4) ls'.
Proof.
  destruct (FindTable_creates_path_once 1 4%Z testState)
    as (ls' & Hrun & Hlen & _ & _ & _ & _ & _ & _ & _ & _ & _ & Hagain).
  - unfold valid_table. cbn. lia.
  - reflexivity.
  - exists ls'. repeat split; assumption.
Defined.

(** The global foo is a number: the walk along foo.bar stops there. *)
Lemma FindTable_keeps_non_tables_witness :
  FindTable (VTable 1) "foo.bar" 4 conflictState = Ret LNil conflictState.
Proof.
  apply (proj1 (FindTable_keeps_non_tables (VTable 1) "foo.bar" 4%Z conflictState)).
  reflexivity.
Defined.

(** Registering foo on the fresh state gives a table, with the entries a
    and b in it; registering it again gives the identical table and the
    same state. *)
Lemma RegisterModule_twice_witness :
  exists q ls1,
    RegisterModule "foo" fooFuncs testState = Ret (VTable q) ls1
    /\ (forall fname fn, (fname, fn) ∈ fooFuncs ->
          fname <> "foo"
          \/ RawGet (VTable (G_Registry ls1)) (VString "_LOADED") ls1 <> VTable q ->
          exists f, RawGet (VTable q) (VString fname) ls1 = VFunction f
                    /\ functions ls1 !! f = Some (native_function fn))
    /\ (q <> G_Registry testState \/ "_LOADED" ∉ fooFuncs.*1 ->
        RegisterModule "foo" fooFuncs ls1 = Ret (VTable q) ls1).
Proof.
  apply (RegisterModule_twice "foo" fooFuncs testState).
  - exact testState_wf.
  - cbn. apply NoDup_cons. split; [|apply NoDup_singleton].
    intros Hin. apply list_elem_of_singleton in Hin. discriminate Hin.
  - left. reflexivity.
  - reflexivity.
Defined.

Lemma aliasLoadedState_wf : heap_wf aliasLoadedState.
Proof.
  unfold heap_wf, valid_table. cbn. repeat split; [lia|lia|].
  intros [|[|[|p]]] k q; cbn; rewrite ?lookup_empty; try done.
  - destruct (decide (k = "_LOADED")) as [->|Hk].
    + rewrite lookup_singleton_eq. intros [= <-]. lia.
    + by rewrite lookup_singleton_ne.
  - destruct (decide (k = "m")) as [->|Hk].
    + rewrite lookup_singleton_eq. intros [= <-]. lia.
    + by rewrite lookup_singleton_ne.
Qed.

Lemma aliasRegistryState_wf : heap_wf aliasRegistryState.
Proof.
  unfold heap_wf, valid_table. cbn. repeat split; [lia|lia|].
  intros [|[|[|p]]] k q; cbn; rewrite ?lookup_empty; try done.
  - destruct (decide (k = "_LOADED")) as [->|Hk].
    + rewrite lookup_singleton_eq. intros [= <-]. lia.
    + by rewrite lookup_singleton_ne.
  - destruct (decide (k = "r")) as [->|Hk].
    + rewrite lookup_singleton_eq. intros [= <-]. lia.
    + by rewrite lookup_singleton_ne.
Qed.

(** C6 as stated fails on aliased tables.  Both states below have all
    table references allocated, list a loaded-modules table other than
    the registry root that records nothing under the name, and offer a
    globals path free of non-tables.
    In the first, the global m is the loaded-modules table: registering
    the module m with the one entry m returns that table, where slot m
    holds the record of the module (the table itself) and not the function
    of the entry, so the entry of F is not present after the first call.
    In the second, the global r is the registry root: registering the
    module r with the one entry _LOADED returns the registry root, whose
    slot _LOADED now holds a function, and the second call does not return
    the table: it raises. *)
Lemma RegisterModule_aliased_tables :
  (heap_wf aliasLoadedState
   /\ RawGet (VTable (G_Registry aliasLoadedState)) (VString "_LOADED")
        aliasLoadedState = VTable 2
   /\ RawGet (VTable 2) (VString "m") aliasLoadedState = LNil
   /\ hits_non_table (strings_Split "m" dot)
        (VTable (G_Global aliasLoadedState)) aliasLoadedState = false
   /\ exists ls1,
        RegisterModule "m" mFuncs aliasLoadedState = Ret (VTable 2) ls1
        /\ RawGet (VTable 2) (VString "m") ls1 = VTable 2
        /\ forall f, RawGet (VTable 2) (VString "m") ls1 <> VFunction f)
  /\ (heap_wf aliasRegistryState
      /\ RawGet (VTable (G_Registry aliasRegistryState)) (VString "_LOADED")
           aliasRegistryState = VTable 2
      /\ RawGet (VTable 2) (VString "r") aliasRegistryState = LNil
      /\ hits_non_table (strings_Split "r" dot)
           (VTable (G_Global aliasRegistryState)) aliasRegistryState = false
      /\ exists ls1 e ls2,
           RegisterModule "r" loadedFuncs aliasRegistryState = Ret (VTable 0) ls1
           /\ RegisterModule "r" loadedFuncs ls1 = Raise e ls2
           /\ RegisterModule "r" loadedFuncs ls1 <> Ret (VTable 0) ls1).
Proof.
  split.
  - split; [exact aliasLoadedState_wf|].
    do 3 (split; [reflexivity|]).
    eexists. split; [reflexivity|]. split; [reflexivity|].
    intros f Heq. discriminate Heq.
  - split; [exact aliasRegistryState_wf|].
    do 3 (split; [reflexivity|]).
    eexists _, _, _. split; [reflexivity|]. split; [reflexivity|].
    intros Heq. discriminate Heq.
Qed.


(** Userdata 7 has the metafield __tostring, the function that returns
    its argument. *)
Lemma CallMeta_outcomes_witness :
  CallMeta (VUserData 7) "__tostring" metaState = Ret (VUserData 7) metaState.
Proof.
  rewrite (proj2 (proj2 (proj2 (CallMeta_outcomes (VUserData 7) "__tostring"
                                  metaState)))); reflexivity.
Defined.

(** The source 1+ does not compile; the chunk loaded in [boomState]
    raises boom, which comes back as an error value. *)
Lemma Do_returns_errors_witness :
  (exists err, DoString "1+" testState = Ret (Some err) testState
               /\ ErrType err = ApiErrorSyntax)
  /\ (exists e ls', DoString "x" boomState = Ret (Some e) ls' /\ Message e = "boom").
Proof.
  destruct (Do_returns_errors "x" "ok.lua" boomState) as (_ & _ & Hrun & _).
  destruct (Do_returns_errors "1+" "ok.lua" testState) as (Hload & _).
  split.
  - eexists. split; [apply Hload; reflexivity|reflexivity].
  - eexists _, _. split; [eapply Hrun; reflexivity|reflexivity].
Defined.

(** The second argument is the string b, the option of index 1. *)
Lemma CheckOption_outcomes_witness :
  exists i : nat,
    CheckOption 2 ["a"; "b"; "c"] testState = Ret (Z.of_nat i) testState
    /\ ["a"; "b"; "c"] !! i = Some "b"
    /\ forall j, j < i -> ["a"; "b"; "c"] !! j <> Some "b".
Proof.
  apply (proj2 (proj2 (proj2 (CheckOption_outcomes 2 ["a"; "b"; "c"] testState)))
           "b"); [reflexivity|].
  apply list_elem_of_further, list_elem_of_here.
Defined.

End examples.

(** * The further properties at work *)

Section more_examples.
Local Existing Instance testHost.
Local Existing Instance testInterp.

Lemma testState_no_dangling : no_dangling testState.
Proof. intros [|[|p]] k q; cbn; rewrite ?lookup_empty; done. Qed.

Lemma conflictState_no_dangling : no_dangling conflictState.
Proof.
  intros [|[|p]] k q; cbn; rewrite ?lookup_empty; try done.
  destruct (decide (k = "foo")) as [->|Hk].
  - by rewrite lookup_singleton_eq.
  - by rewrite lookup_singleton_ne.
Qed.

(** The first argument is a number: [OptString] and [CheckString] raise
    the same error, [OptInt] and [CheckInt] return the same number. *)
Lemma Opt_like_Check_witness :
  (forall d, OptString 1 d testState = CheckString 1 testState)
  /\ (forall d, OptInt 1 d testState = CheckInt 1 testState).
Proof.
  destruct (Opt_like_Check 1 testState) as (Hint & _ & _ & Hstr & _).
  - discriminate.
  - by split.
Defined.

(** The path a.b was created under the globals: it leads to table 3, and
    looking for it again, with another hint, finds table 3. *)
Lemma FindTable_found_again_witness :
  valid_table 3 pathState
  /\ walk (strings_Split "a.b" dot) (VTable 1) pathState = VTable 3
  /\ FindTable (VTable 1) "a.b" 0 pathState = Ret (VTable 3) pathState.
Proof.
  apply (FindTable_found_again 1 "a.b" 4 0 testState 3 pathState).
  - exact testState_no_dangling.
  - unfold valid_table. cbn. lia.
  - reflexivity.
Defined.

(** Under the globals of [conflictState], foo is a number. *)
Lemma FindTable_nil_iff_blocked_witness :
  ((exists ls', FindTable (VTable 1) "foo.bar" 4 conflictState = Ret LNil ls')
   <-> hits_non_table (strings_Split "foo.bar" dot) (VTable 1) conflictState = true)
  /\ (hits_non_table (strings_Split "foo.bar" dot) (VTable 1) conflictState = false ->
      exists q ls', FindTable (VTable 1) "foo.bar" 4 conflictState
                    = Ret (VTable q) ls').
Proof.
  apply (FindTable_nil_iff_blocked 1 "foo.bar" 4 conflictState).
  - exact conflictState_no_dangling.
  - unfold valid_table. cbn. lia.
Defined.

(** foo is loaded: registering it again, with any functions, gives the
    recorded table 3 and the same state. *)
Lemma RegisterModule_already_loaded_witness :
  RegisterModule "foo" fooFuncs loadedState = Ret (VTable 3) loadedState.
Proof.
  apply (RegisterModule_already_loaded "foo" fooFuncs loadedState 2 3);
    reflexivity.
Defined.

(** Registering foo on the fresh state. *)
Lemma RegisterModule_first_registration_witness :
  exists q t ls1,
    RegisterModule "foo" fooFuncs testState = Ret (VTable q) ls1
    /\ RawGet (VTable t) (VString "foo") ls1 = VTable q
    /\ functions ls1
       = functions testState ++ ((fun e => native_function e.2) <$> fooFuncs).
Proof.
  destruct (RegisterModule_first_registration "foo" fooFuncs testState)
    as (q & t & ls1 & Hrun & Hrec & _ & Hfun & _).
  - exact testState_wf.
  - left. reflexivity.
  - reflexivity.
  - by exists q, t, ls1.
Defined.

(** The global foo is a number: the conflict leaves the function heap
    empty and is raised again on a second try. *)
Lemma RegisterModule_conflict_installs_nothing_witness :
  exists ls',
    RegisterModule "foo" fooFuncs conflictState = Raise (NameConflict "foo") ls'
    /\ functions ls' = []
    /\ RegisterModule "foo" [] ls' = Raise (NameConflict "foo") ls'.
Proof.
  destruct (RegisterModule_conflict_installs_nothing "foo" fooFuncs []
              conflictState)
    as (ls' & Hrun & Hfun & _ & _ & _ & _ & _ & _ & Hagain).
  - unfold valid_table. cbn. lia.
  - left. reflexivity.
  - reflexivity.
  - by exists ls'.
Defined.

(** The type name T on the fresh state. *)
Lemma NewTypeMetatable_registers_once_witness :
  exists t ls1,
    NewTypeMetatable "T" testState = Ret (Some t) ls1
    /\ GetTypeMetatable "T" ls1 = Ret (VTable t) ls1
    /\ NewTypeMetatable "T" ls1 = Ret (Some t) ls1.
Proof.
  destruct (NewTypeMetatable_registers_once "T" testState)
    as (t & ls1 & Hrun & Hget & Hagain & _).
  - unfold valid_table. cbn. lia.
  - by exists t, ls1.
Defined.

(** The type names A and B get the tables 2 and 3. *)
Lemma NewTypeMetatable_distinct_types_witness :
  2 <> 3
  /\ GetTypeMetatable "A" typeStateAB = Ret (VTable 2) typeStateAB
  /\ GetTypeMetatable "B" typeStateAB = Ret (VTable 3) typeStateAB.
Proof.
  apply (NewTypeMetatable_distinct_types "A" "B" testState 2 3 typeStateA
           typeStateAB).
  - unfold valid_table. cbn. lia.
  - discriminate.
  - cbn. discriminate.
  - cbn. discriminate.
  - reflexivity.
  - reflexivity.
Defined.

(** The file missing.lua cannot be opened. *)
Lemma DoFile_unreadable_witness :
  DoFile "missing.lua" testState
  = Ret (Some (FileError "missing.lua")) testState.
Proof.
  apply (DoFile_unreadable "missing.lua" testState); [discriminate|reflexivity].
Defined.

End more_examples.
